(** * Magnetoresistance and scattering notebooks of the Kwant tutorial

    A shallow embedding of the Python code of
    [3.3.MagnetoResistance-cheat.ipynb] and [2.2.scattering.ipynb].

    Numbers: Python and numpy floats are modelled by the real numbers [R]
    of the Standard Library, complex entries by pairs of reals.  The calls
    into Kwant ([kwant.smatrix], [smatrix.transmission]) are parameters of
    the development.  [numpy.linalg.solve] on a 3x3 system returns the
    exact solution of a nonsingular system; what it makes of a singular one
    depends on rounding and is a parameter too.  [Transport] is also given
    in binary64, with the LU factorisation written out, to compute what the
    code does on concrete transmissions. *)

From Stdlib Require Import Floats.
From Stdlib Require Import Reals Lra List Bool Arith Lia ZArith Permutation.
Import ListNotations.

Local Open Scope R_scope.

(** ** Python exceptions and the error monad *)

Inductive exn : Type :=
| ZeroDivisionError
| IndexError
| AttributeError
| LinAlgError.

Inductive result (A : Type) : Type :=
| Ok (a : A)
| Raise (e : exn).

Arguments Ok {A} a.
Arguments Raise {A} e.

Definition bind {A B : Type} (c : result A) (k : A -> result B) : result B :=
  match c with
  | Ok a => k a
  | Raise e => Raise e
  end.

Notation "x <- c ;; k" := (bind c (fun x => k))
  (at level 61, c at next level, right associativity).

(** Comparisons of floats, as booleans. *)
Definition Rltb (a b : R) : bool := if Rlt_dec a b then true else false.
Definition Reqb (a b : R) : bool := if Req_dec_T a b then true else false.

(** Python's [a / b] on floats: raises [ZeroDivisionError] when [b] is 0. *)
Definition py_div (a b : R) : result R :=
  if Reqb b 0 then Raise ZeroDivisionError else Ok (a / b).

(** ** Complex numbers and 2x2 complex matrices (numpy arrays of shape (2,2)) *)

Record Cplx : Type := mkC { re : R; im : R }.

Definition Cadd (z w : Cplx) : Cplx := mkC (re z + re w) (im z + im w).
Definition Cscale (k : R) (z : Cplx) : Cplx := mkC (k * re z) (k * im z).
Definition Cconj (z : Cplx) : Cplx := mkC (re z) (- im z).
Definition Czero : Cplx := mkC 0 0.
Definition Cone : Cplx := mkC 1 0.
Definition Cimag : Cplx := mkC 0 1.

Record M2 : Type := mkM2 { m00 : Cplx; m01 : Cplx; m10 : Cplx; m11 : Cplx }.

(** [A + B] on arrays. *)
Definition Madd (A B : M2) : M2 :=
  mkM2 (Cadd (m00 A) (m00 B)) (Cadd (m01 A) (m01 B))
       (Cadd (m10 A) (m10 B)) (Cadd (m11 A) (m11 B)).

(** [k * A] for a real scalar [k]. *)
Definition Mscale (k : R) (A : M2) : M2 :=
  mkM2 (Cscale k (m00 A)) (Cscale k (m01 A))
       (Cscale k (m10 A)) (Cscale k (m11 A)).

(** [-A]. *)
Definition Mopp (A : M2) : M2 := Mscale (-1) A.

(** Conjugate transpose. *)
Definition dagger (A : M2) : M2 :=
  mkM2 (Cconj (m00 A)) (Cconj (m10 A)) (Cconj (m01 A)) (Cconj (m11 A)).

Definition Hermitian (A : M2) : Prop := dagger A = A.

Definition Cmul (z w : Cplx) : Cplx :=
  mkC (re z * re w - im z * im w) (re z * im w + im z * re w).

(** Matrix product [A @ B]. *)
Definition Mmul (A B : M2) : M2 :=
  mkM2 (Cadd (Cmul (m00 A) (m00 B)) (Cmul (m01 A) (m10 B)))
       (Cadd (Cmul (m00 A) (m01 B)) (Cmul (m01 A) (m11 B)))
       (Cadd (Cmul (m10 A) (m00 B)) (Cmul (m11 A) (m10 B)))
       (Cadd (Cmul (m10 A) (m01 B)) (Cmul (m11 A) (m11 B))).

Definition Csub (z w : Cplx) : Cplx := mkC (re z - re w) (im z - im w).

(** Transpose [A.T]. *)
Definition Mtranspose (A : M2) : M2 := mkM2 (m00 A) (m10 A) (m01 A) (m11 A).

Definition Mzero : M2 := mkM2 Czero Czero Czero Czero.

Declare Scope mat_scope.
Delimit Scope mat_scope with mat.
Bind Scope mat_scope with M2.
Infix "+" := Madd : mat_scope.
Infix "*" := Mscale : mat_scope.

(** [s_0 = np.identity(2)], [s_z], [s_x], [s_y]. *)
Definition s_0 : M2 := mkM2 Cone Czero Czero Cone.
Definition s_z : M2 := mkM2 Cone Czero Czero (Cscale (-1) Cone).
Definition s_x : M2 := mkM2 Czero Cone Cone Czero.
Definition s_y : M2 := mkM2 Czero (Cscale (-1) Cimag) Cimag Czero.

(** ** numpy arrays of floats *)

Module Np.

(** A two-dimensional array, as the list of its rows. *)
Definition Mat : Type := list (list R).
Definition Vec : Type := list R.

(** [np.zeros((n, m))]. *)
Definition zeros (n m : nat) : Mat := repeat (repeat 0 m) n.

Fixpoint update {A : Type} (l : list A) (i : nat) (v : A) : list A :=
  match l, i with
  | [], _ => []
  | _ :: t, O => v :: t
  | x :: t, S i' => x :: update t i' v
  end.

(** [G[i, j]]: an index out of range raises [IndexError]. *)
Definition getitem (G : Mat) (i j : nat) : result R :=
  match nth_error G i with
  | Some row =>
      match nth_error row j with
      | Some v => Ok v
      | None => Raise IndexError
      end
  | None => Raise IndexError
  end.

(** [G[i, j] = v]. *)
Definition setitem (G : Mat) (i j : nat) (v : R) : result Mat :=
  match nth_error G i with
  | Some row =>
      if (j <? length row)%nat then Ok (update G i (update row j v))
      else Raise IndexError
  | None => Raise IndexError
  end.

(** [V[i]] on a one-dimensional array. *)
Definition getitem1 (V : Vec) (i : nat) : result R :=
  match nth_error V i with
  | Some v => Ok v
  | None => Raise IndexError
  end.

(** [G[:n, :m]]. *)
Definition slice (n m : nat) (G : Mat) : Mat := map (firstn m) (firstn n G).

(** Entry of an array for use in statements; 0 outside the array. *)
Definition entry (G : Mat) (i j : nat) : R := nth j (nth i G []) 0.
Definition item (V : Vec) (i : nat) : R := nth i V 0.

Definition sum (l : list R) : R := fold_right Rplus 0 l.
Definition dot (u v : Vec) : R := sum (map (fun p => fst p * snd p) (combine u v)).

(** Matrix-vector product [A @ V]. *)
Definition matvec (A : Mat) (V : Vec) : Vec := map (fun row => dot row V) A.

(** Determinant of a 3x3 array (expansion along the first row). *)
Definition det3 (A : Mat) : R :=
  entry A 0 0 * (entry A 1 1 * entry A 2 2 - entry A 1 2 * entry A 2 1)
  - entry A 0 1 * (entry A 1 0 * entry A 2 2 - entry A 1 2 * entry A 2 0)
  + entry A 0 2 * (entry A 1 0 * entry A 2 1 - entry A 1 1 * entry A 2 0).

(** [A] with its column [k] replaced by [b]. *)
Definition replace_col (A : Mat) (k : nat) (b : Vec) : Mat :=
  map (fun p => update (fst p) k (snd p)) (combine A b).

Definition is_shape (n m : nat) (A : Mat) : bool :=
  (length A =? n)%nat && forallb (fun row => (length row =? m)%nat) A.

(** [A] has a row of zeros. *)
Definition has_zero_row (A : Mat) : bool :=
  existsb (forallb (fun v => Reqb v 0)) A.

(** What the LU factorisation behind [np.linalg.solve] makes of a singular
    matrix is decided by rounding: [None] when it meets an exactly zero
    pivot, which numpy reports as [LinAlgError], and [Some (x, y, z)] when
    rounding hides the singularity and the substitution returns a vector.
    The reals do not say which; it is a parameter of the model. *)
Definition rounding : Type := Mat -> Vec -> option (R * R * R).

(** [np.linalg.solve(A, b)] on the 3x3 systems the notebook passes to it.
    For a nonsingular [A]: the exact solution [x] of [A x = b] (written
    with Cramer's rule).  For a singular [A]: [LinAlgError] when [A] has a
    row of zeros, which stays a zero pivot in floating point, and otherwise
    what [lapack] says.  [LinAlgError] when the shapes do not fit. *)
Definition linalg_solve (lapack : rounding) (A : Mat) (b : Vec) : result Vec :=
  if negb (is_shape 3 3 A && (length b =? 3)%nat) then Raise LinAlgError
  else if Reqb (det3 A) 0 then
    if has_zero_row A then Raise LinAlgError
    else match lapack A b with
         | Some (x, y, z) => Ok [x; y; z]
         | None => Raise LinAlgError
         end
  else Ok [ det3 (replace_col A 0 b) / det3 A;
            det3 (replace_col A 1 b) / det3 A;
            det3 (replace_col A 2 b) / det3 A ].

End Np.

(** Python's [for x in xs: body], in the error monad, threading a state. *)
Fixpoint for_each {A S : Type} (xs : list A) (body : S -> A -> result S)
    (s : S) : result S :=
  match xs with
  | [] => Ok s
  | x :: rest => s' <- body s x ;; for_each rest body s'
  end.

(** [range(n)]. *)
Definition range (n : nat) : list nat := seq 0 n.

(** ** Sites of the square lattice *)

(** A Kwant site; the code only reads its real-space position [site.pos]. *)
Record Site : Type := mkSite { pos : R * R }.

(** [lat(x, y)] for [lat = kwant.lattice.square()]. *)
Definition lat (x y : Z) : Site := mkSite (IZR x, IZR y).

(** ** Hamiltonian of a Kwant builder on the square lattice

    After [H[sites] = onsite] and [H[lat.neighbors()] = hopping], the block
    of the Hamiltonian between two sites of the builder, with tags [a] and
    [b], is the on-site value when [a = b], the hopping value when [a] is [b] shifted by
    one of the lattice vectors (1,0) and (0,1), and the conjugate transpose
    of the hopping value for the opposite direction, which Kwant fills in
    itself. *)

Module Kwant.

Definition tag : Type := (Z * Z)%type.

Definition tag_eqb (a b : tag) : bool :=
  (fst a =? fst b)%Z && (snd a =? snd b)%Z.

Definition shift (a d : tag) : tag := ((fst a + fst d)%Z, (snd a + snd d)%Z).

(** [lat.neighbors()]: the hoppings from [b] to [b + d], [d] a lattice vector. *)
Definition is_hopping (a b : tag) : bool :=
  tag_eqb a (shift b (1, 0)%Z) || tag_eqb a (shift b (0, 1)%Z).

Definition hamiltonian (onsite : Site -> result M2) (hopping : M2)
    (a b : tag) : result M2 :=
  if tag_eqb a b then onsite (lat (fst a) (snd a))
  else if is_hopping a b then Ok hopping
  else if is_hopping b a then Ok (dagger hopping)
  else Ok Mzero.

End Kwant.

(** [np.linspace(a, b, n)]. *)
Definition linspace (a b : R) (n : nat) : list R :=
  map (fun k => a + INR k * ((b - a) / INR (n - 1))) (seq 0 n).

(** ** The quantum wire (scattering notebook) *)

Module Scattering.

(** A builder with constant values: its sites, the on-site value and the
    hopping value set on [lat.neighbors()], and the period of its
    translational symmetry when it is a lead. *)
Record builder : Type :=
  mkBuilder { sites : Kwant.tag -> bool;
              onsite : R;
              hopping : R;
              symmetry : option Kwant.tag }.

Definition in_range (n : nat) (k : Z) : bool := (0 <=? k)%Z && (k <? Z.of_nat n)%Z.

Definition make_lead_x (W : nat) (t : R) : builder :=
  mkBuilder (fun a => (fst a =? 0)%Z && in_range W (snd a))
            (4 * t) (- t) (Some (-1, 0)%Z).

(** [lead.reversed()]. *)
Definition reversed (lead : builder) : builder :=
  mkBuilder (sites lead) (onsite lead) (hopping lead)
            (option_map (fun v => (- fst v, - snd v)%Z) (symmetry lead)).

(** [make_wire(W, L, t)]: the scattering region and its attached leads, in
    the order of attachment. *)
Definition make_wire (W L : nat) (t : R) : builder * list builder :=
  let sr := mkBuilder (fun a => in_range L (fst a) && in_range W (snd a))
                      (4 * t) (- t) None in
  let lead := make_lead_x W t in
  (sr, [lead; reversed lead]).

(** [make_periodic_lead(W, t)], as the notebook leaves it to the reader. *)
Definition make_periodic_lead (W : nat) (t : R) : builder :=
  let syst := make_lead_x W t in
  syst.

(** [is_inside(pos)] of [make_dot(center, radius, t)]. *)
Definition is_inside (center : R * R) (radius : R) (pos : R * R) : bool :=
  let rr := radius ^ 2 in
  let x := fst pos - fst center in
  let y := snd pos - snd center in
  Rltb (x ^ 2 + y ^ 2) rr.

Section Plot.

(** A finalized system and [kwant.smatrix(syst, energy).transmission(i, j)]. *)
Variable FiniteSystem : Type.
Variable transmission : FiniteSystem -> R -> nat -> nat -> R.

(** One iteration of [for energy in energies], on the state [(trans, refl)]. *)
Definition plot_body (syst : FiniteSystem) (st : list R * list R) (energy : R)
    : list R * list R :=
  let '(trans, refl) := st in
  let smatrix := transmission syst energy in
  (trans ++ [smatrix 1%nat 0%nat], refl ++ [smatrix 0%nat 0%nat]).

(** The two series that [plot_transmission] hands to [pyplot.plot]. *)
Definition plot_transmission (syst : FiniteSystem) (energies : list R)
    : list R * list R :=
  fold_left (plot_body syst) energies ([], []).

End Plot.

End Scattering.

(** ** The spin valve (first half of the magnetoresistance notebook) *)

Module SpinValve.

(** [SimpleNamespace(Exc=..., E=..., angle=...)]. *)
Record params : Type := mkParams { Exc : R; E : R; angle : R }.

(** The global [W = 10]. *)
Definition W : R := 10.

Definition onsite (site : Site) (p : params) : M2 :=
  let x := fst (pos site) in
  if Rltb W x && Rltb x (2 * W) then
    (4 * s_0 + Exc p * s_z)%mat
  else if Rltb (3 * W) x && Rltb x (4 * W) then
    (4 * s_0 + (Exc p * cos (angle p)) * s_z + (Exc p * sin (angle p)) * s_x)%mat
  else
    (4 * s_0)%mat.

(** The builder [H] of the spin valve: on-site values [onsite], hoppings
    [s_0]. *)
Definition H (p : params) : Kwant.tag -> Kwant.tag -> result M2 :=
  Kwant.hamiltonian (fun site => Ok (onsite site p)) s_0.

(** [V(site)], the function mapped by [kwant.plotter.map(H, V)]; [ps] is
    the global parameter object it reads. *)
Definition V (site : Site) (ps : params) : R :=
  let Hd := onsite site ps in
  re (Csub (m00 Hd) (m11 Hd)).

(** *** The angle sweep *)

(** The object [params = SimpleNamespace(Exc=0.2, E=2.3)] that the sweep
    shares between its iterations: it has no attribute [angle] until the
    loop [for params.angle in angles] assigns one. *)
Record namespace : Type :=
  mkNamespace { ns_Exc : R; ns_E : R; ns_angle : option R }.

(** The assignment [params.angle = a] made by the loop header. *)
Definition set_angle (ns : namespace) (a : R) : namespace :=
  mkNamespace (ns_Exc ns) (ns_E ns) (Some a).

(** Reading the attributes of the namespace, as [onsite] does when Kwant
    evaluates it: an unset attribute raises [AttributeError]. *)
Definition read (ns : namespace) : result params :=
  match ns_angle ns with
  | Some a => Ok (mkParams (ns_Exc ns) (ns_E ns) a)
  | None => Raise AttributeError
  end.

Section Sweep.

(** A finalized Kwant system, and
    [kwant.smatrix(Hf, E, args=[p]).transmission(i, j)]. *)
Variable FiniteSystem : Type.
Variable transmission : FiniteSystem -> R -> params -> nat -> nat -> R.

(** [kwant.smatrix(Hf, energy, args=[ns])]. *)
Definition smatrix (Hf : FiniteSystem) (energy : R) (ns : namespace)
    : result (nat -> nat -> R) :=
  p <- read ns ;;
  Ok (transmission Hf energy p).

(** One iteration of [for params.angle in angles], on the state
    [(params, data)]. *)
Definition sweep_body (Hf : FiniteSystem) (st : namespace * list R) (a : R)
    : result (namespace * list R) :=
  let '(params, data) := st in
  let params := set_angle params a in
  sm <- smatrix Hf (ns_E params) params ;;
  Ok (params, data ++ [sm 1%nat 0%nat]).

Definition sweep (Hf : FiniteSystem) (params : namespace) (angles : list R)
    : result (namespace * list R) :=
  let data := [] in
  for_each angles (sweep_body Hf) (params, data).

(** [angles = np.linspace(0, 2*pi, 100)]. *)
Definition angles : list R := linspace 0 (2 * PI) 100.

(** The value of one sweep point computed on its own: a function of the
    system, the exchange constant, the energy and the angle. *)
Definition point (Hf : FiniteSystem) (exc energy a : R) : R :=
  transmission Hf energy (mkParams exc energy a) 1%nat 0%nat.

End Sweep.

End SpinValve.

(** ** The skyrmion (second half of the magnetoresistance notebook) *)

Module Skyrmion.

(** [SimpleNamespace(L=..., W=..., delta=..., r0=..., Ex=...)]. *)
Record params : Type :=
  mkParams { L : R; W : R; delta : R; r0 : R; Ex : R }.

(** The division by [ps.delta] is modelled for a nonzero [delta] and for
    a Python zero, which raises [ZeroDivisionError].  The width sweep stores
    numpy floats in [ps.delta]; a zero among them would give [inf] or [nan]
    and no exception, but the grid of the sweep holds none. *)
Definition HedgeHog (site : Site) (ps : params) : result M2 :=
  let '(x, y) := pos site in
  let r := sqrt (x ^ 2 + y ^ 2) in
  q <- py_div (r0 ps - r) (delta ps) ;;
  let theta := (PI / 2) * (tanh q + 1) in
  Ex_ <- (if negb (Reqb r 0) then
            xr <- py_div x r ;;
            yr <- py_div y r ;;
            Ok ((xr * sin theta) * s_x + (yr * sin theta) * s_y
                + cos theta * s_z)%mat
          else
            Ok s_z) ;;
  Ok (4 * s_0 + Ex ps * Ex_)%mat.

Definition Lead_Pot (site : Site) (ps : params) : M2 :=
  (4 * s_0 + Ex ps * s_z)%mat.

(** [Vz(site)] and [Vy(site)], the two functions mapped over the skyrmion;
    [ps] is the global parameter object they read. *)
Definition Vz (site : Site) (ps : params) : result R :=
  Hd <- HedgeHog site ps ;;
  Ok (re (Csub (m00 Hd) (m11 Hd))).

Definition Vy (site : Site) (ps : params) : result R :=
  Hd <- HedgeHog site ps ;;
  Ok (im (m01 Hd)).

(** *** The geometry built by [MakeSystem] *)

(** [shape_2DEG(pos)]: a cross of two rectangles. *)
Definition shape_2DEG (ps : params) (pos : R * R) : bool :=
  let '(x, y) := pos in
  (Rltb (Rabs x) (L ps) && Rltb (Rabs y) (W ps))
  || (Rltb (Rabs x) (W ps) && Rltb (Rabs y) (L ps)).

(** [shape_x] and [shape_y], the cross-sections of the leads. *)
Definition shape_x (ps : params) (pos : R * R) : bool :=
  Rltb (Rabs (snd pos)) (W ps) && Reqb (fst pos) 0.

Definition shape_y (ps : params) (pos : R * R) : bool :=
  Rltb (Rabs (fst pos)) (W ps) && Reqb (snd pos) 0.

(** A lead: its cross-section and the period of its translational
    symmetry; every lead carries [Lead_Pot] and hoppings [-s_0]. *)
Record lead : Type :=
  mkLead { cross_section : R * R -> bool; symmetry : Kwant.tag }.

Definition H_lead_x (ps : params) : lead := mkLead (shape_x ps) (-1, 0)%Z.
Definition H_lead_y (ps : params) : lead := mkLead (shape_y ps) (0, -1)%Z.

(** [lead.reversed()]. *)
Definition reversed (l : lead) : lead :=
  mkLead (cross_section l) (- fst (symmetry l), - snd (symmetry l))%Z.

(** The leads of [MakeSystem(ps)], in the order of the [attach_lead] calls,
    which is the order of the lead indices that [Transport] uses. *)
Definition attached_leads (ps : params) : list lead :=
  [H_lead_x ps; H_lead_y ps; reversed (H_lead_y ps); reversed (H_lead_x ps)].

(** *** The four-terminal Hall measurement *)

(** Calls of the linear solver, recorded in the order they are made. *)
Inductive call : Type :=
| LinalgSolve (A : Np.Mat) (b : Np.Vec).

(** A computation with the log of its solver calls and its outcome. *)
Record run (A : Type) : Type := mkRun { calls : list call; outcome : result A }.
Arguments mkRun {A} calls outcome.
Arguments calls {A} r.
Arguments outcome {A} r.

Definition ret {A : Type} (a : A) : run A := mkRun [] (Ok a).
Definition lift {A : Type} (c : result A) : run A := mkRun [] c.

Definition rbind {A B : Type} (c : run A) (k : A -> run B) : run B :=
  match outcome c with
  | Ok a => mkRun (calls c ++ calls (k a)) (outcome (k a))
  | Raise e => mkRun (calls c) (Raise e)
  end.

Notation "x <-- c ;; k" := (rbind c (fun x => k))
  (at level 61, c at next level, right associativity).

(** The call [np.linalg.solve(A, b)], logged. *)
Definition solve (lapack : Np.rounding) (A : Np.Mat) (b : Np.Vec)
    : run Np.Vec :=
  mkRun [LinalgSolve A b] (Np.linalg_solve lapack A b).

Section Transport.

(** A finalized Kwant system, and
    [kwant.smatrix(Hf, energy=EE, args=[ps]).transmission(i, j)]:
    the transmission from lead [j] to lead [i]. *)
Variable FiniteSystem : Type.
Variable transmission : FiniteSystem -> R -> params -> nat -> nat -> R.

(** The behaviour of the solver on singular systems. *)
Variable lapack : Np.rounding.

(** The body of the inner loop [for j in range(4)], on the state [(G, a)]. *)
Definition inner_body (T : nat -> nat -> R) (i : nat)
    (st : Np.Mat * R) (j : nat) : result (Np.Mat * R) :=
  let '(G, a) := st in
  G <- Np.setitem G i j (T i j) ;;
  if negb (i =? j)%nat then
    g <- Np.getitem G i j ;;
    Ok (G, a + g)
  else
    Ok (G, a).

(** The body of the outer loop [for i in range(4)], on the state [G]. *)
Definition outer_body (T : nat -> nat -> R) (G : Np.Mat) (i : nat)
    : result Np.Mat :=
  let a := 0 in
  st <- for_each (range 4) (inner_body T i) (G, a) ;;
  let '(G, a) := st in
  Np.setitem G i i (- a).

(** The conductance matrix [G] that [Transport] fills in. *)
Definition conductance_matrix (T : nat -> nat -> R) : result Np.Mat :=
  let G := Np.zeros 4 4 in
  for_each (range 4) (outer_body T) G.

Definition Transport (Hf : FiniteSystem) (EE : R) (ps : params)
    : run (Np.Mat * R) :=
  let smatrix := transmission Hf EE ps in
  G <-- lift (conductance_matrix smatrix) ;;
  V <-- solve lapack (Np.slice 3 3 G) [1; 0; 0] ;;
  v2 <-- lift (Np.getitem1 V 2) ;;
  v1 <-- lift (Np.getitem1 V 1) ;;
  let Hall := v2 - v1 in
  ret (G, Hall).

(** *** The domain-width sweep *)

(** The assignment [ps.delta = EE]. *)
Definition set_delta (ps : params) (EE : R) : params :=
  mkParams (L ps) (W ps) EE (r0 ps) (Ex ps).

Fixpoint for_each_run {A S : Type} (xs : list A) (body : S -> A -> run S)
    (s : S) : run S :=
  match xs with
  | [] => ret s
  | x :: rest => s' <-- body s x ;; for_each_run rest body s'
  end.

(** One iteration of [for EE in Es], on the state [(ps, dataHall)]. *)
Definition sweep_body (Hf : FiniteSystem) (st : params * list R) (EE : R)
    : run (params * list R) :=
  let '(ps, dataHall) := st in
  let ps := set_delta ps EE in
  let energy := 2 in
  GH <-- Transport Hf energy ps ;;
  let '(G, Hall) := GH in
  ret (ps, dataHall ++ [Hall]).

Definition sweep (Hf : FiniteSystem) (ps : params) (Es : list R)
    : run (params * list R) :=
  let dataHall := [] in
  for_each_run Es (sweep_body Hf) (ps, dataHall).

(** [Es = np.linspace(0.1, 3., 50)]. *)
Definition Es : list R := linspace (1 / 10) 3 50.

(** The Hall resistance of one sweep point computed on its own. *)
Definition point (Hf : FiniteSystem) (ps : params) (EE : R) : result R :=
  match outcome (Transport Hf 2 (set_delta ps EE)) with
  | Ok (_, Hall) => Ok Hall
  | Raise e => Raise e
  end.

End Transport.

(** The builders of the skyrmion system and of its leads: on-site values
    [HedgeHog] and [Lead_Pot], hoppings [-s_0]. *)
Definition H (ps : params) : Kwant.tag -> Kwant.tag -> result M2 :=
  Kwant.hamiltonian (fun site => HedgeHog site ps) (Mopp s_0).

Definition H_lead (ps : params) : Kwant.tag -> Kwant.tag -> result M2 :=
  Kwant.hamiltonian (fun site => Ok (Lead_Pot site ps)) (Mopp s_0).

End Skyrmion.

(** ** [Transport] in binary64

    The same code with the numbers as numpy has them, IEEE 754 binary64
    floats, and [np.linalg.solve] as the LAPACK routine behind it works:
    an LU factorisation with partial pivoting that gives up on an exactly
    zero pivot, then forward and back substitution. *)

Module Float64.

Definition Mat : Type := list (list float).
Definition Vec : Type := list float.

Definition zeros (n m : nat) : Mat := repeat (repeat 0%float m) n.

Definition getitem (G : Mat) (i j : nat) : result float :=
  match nth_error G i with
  | Some row =>
      match nth_error row j with
      | Some v => Ok v
      | None => Raise IndexError
      end
  | None => Raise IndexError
  end.

Definition setitem (G : Mat) (i j : nat) (v : float) : result Mat :=
  match nth_error G i with
  | Some row =>
      if (j <? length row)%nat then Ok (Np.update G i (Np.update row j v))
      else Raise IndexError
  | None => Raise IndexError
  end.

Definition getitem1 (V : Vec) (i : nat) : result float :=
  match nth_error V i with
  | Some v => Ok v
  | None => Raise IndexError
  end.

Definition slice (n m : nat) (G : Mat) : Mat := map (firstn m) (firstn n G).

Definition entry (row : Vec) (k : nat) : float := nth k row 0%float.

(** An equation of the system: a row of the matrix and its right-hand
    side. *)
Definition equation : Type := (Vec * float)%type.

(** The position, among [rows], of the first row whose entry in column [k]
    is largest in absolute value. *)
Fixpoint argmax (k : nat) (rows : list equation) (idx best : nat)
    (largest : float) : nat :=
  match rows with
  | [] => best
  | (row, _) :: rest =>
      let v := PrimFloat.abs (entry row k) in
      if PrimFloat.ltb largest v then argmax k rest (S idx) idx v
      else argmax k rest (S idx) best largest
  end.

Definition pivot_index (k : nat) (rows : list equation) : nat :=
  match rows with
  | [] => 0%nat
  | (row, _) :: rest => argmax k rest 1 0 (PrimFloat.abs (entry row k))
  end.

(** Exchange of the first row with the row at position [p]. *)
Definition swap_first (p : nat) (rows : list equation) : list equation :=
  match p, rows with
  | S p', first :: rest =>
      match nth_error rest p' with
      | Some chosen => chosen :: Np.update rest p' first
      | None => rows
      end
  | _, _ => rows
  end.

(** Elimination of column [k] from one equation with the pivot equation. *)
Definition eliminate (k : nat) (pivot : equation) (eq : equation) : equation :=
  let '(prow, prhs) := pivot in
  let '(row, rhs) := eq in
  let l := (entry row k / entry prow k)%float in
  (map (fun ja => if (fst ja <=? k)%nat then fst (snd ja)
                  else (fst (snd ja) - l * snd (snd ja))%float)
       (combine (seq 0 (length row)) (combine row prow)),
   (rhs - l * prhs)%float).

(** The factorisation of the [n] remaining equations, from column [k] on:
    the triangular system, or [None] on a zero pivot. *)
Fixpoint factor (n k : nat) (rows : list equation) : option (list equation) :=
  match n with
  | O => Some []
  | S n' =>
      match swap_first (pivot_index k rows) rows with
      | [] => Some []
      | pivot :: rest =>
          if PrimFloat.eqb (entry (fst pivot) k) 0%float then None
          else
            match factor n' (S k) (map (eliminate k pivot) rest) with
            | Some triangular => Some (pivot :: triangular)
            | None => None
            end
      end
  end.

(** Back substitution: the unknowns from [k] on. *)
Fixpoint substitute (k : nat) (triangular : list equation) : Vec :=
  match triangular with
  | [] => []
  | (row, rhs) :: rest =>
      let xs := substitute (S k) rest in
      let s := fold_left (fun s jx => (s - entry row (fst jx) * snd jx)%float)
                         (combine (seq (S k) (length xs)) xs) rhs in
      (s / entry row k)%float :: xs
  end.

Definition is_shape (n m : nat) (A : Mat) : bool :=
  (length A =? n)%nat && forallb (fun row => (length row =? m)%nat) A.

(** [np.linalg.solve(A, b)]. *)
Definition linalg_solve (A : Mat) (b : Vec) : result Vec :=
  let n := length A in
  if negb (is_shape n n A && (length b =? n)%nat) then Raise LinAlgError
  else
    match factor n 0 (combine A b) with
    | Some triangular => Ok (substitute 0 triangular)
    | None => Raise LinAlgError
    end.

Definition inner_body (T : nat -> nat -> float) (i : nat)
    (st : Mat * float) (j : nat) : result (Mat * float) :=
  let '(G, a) := st in
  G <- setitem G i j (T i j) ;;
  if negb (i =? j)%nat then
    g <- getitem G i j ;;
    Ok (G, (a + g)%float)
  else
    Ok (G, a).

Definition outer_body (T : nat -> nat -> float) (G : Mat) (i : nat)
    : result Mat :=
  let a := 0%float in
  st <- for_each (range 4) (inner_body T i) (G, a) ;;
  let '(G, a) := st in
  setitem G i i (- a)%float.

Definition conductance_matrix (T : nat -> nat -> float) : result Mat :=
  let G := zeros 4 4 in
  for_each (range 4) (outer_body T) G.

(** [Transport], for the transmissions [T] that [smatrix] holds. *)
Definition Transport (T : nat -> nat -> float) : result (Mat * float) :=
  G <- conductance_matrix T ;;
  V <- linalg_solve (slice 3 3 G) [1; 0; 0]%float ;;
  v2 <- getitem1 V 2 ;;
  v1 <- getitem1 V 1 ;;
  let Hall := (v2 - v1)%float in
  Ok (G, Hall).

End Float64.

(** ** Helpers for statements *)

(** [mapM] in the error monad: the first failure aborts. *)
Fixpoint mapM {A B : Type} (f : A -> result B) (xs : list A)
    : result (list B) :=
  match xs with
  | [] => Ok []
  | x :: rest => y <- f x ;; ys <- mapM f rest ;; Ok (y :: ys)
  end.

(** Sum of the off-diagonal entries of row [i] of a 4x4 array. *)
Definition off_diagonal_sum (G : Np.Mat) (i : nat) : R :=
  Np.sum (map (fun j => if (i =? j)%nat then 0 else Np.entry G i j) (range 4)).

Definition row_sum (G : Np.Mat) (i : nat) : R :=
  Np.sum (map (Np.entry G i) (range 4)).

(** The distance [r] of a site from the centre of the texture. *)
Definition radius (site : Site) : R :=
  sqrt (fst (pos site) ^ 2 + snd (pos site) ^ 2).

(** The polar angle of the texture at distance [r] from the centre. *)
Definition theta_at (ps : Skyrmion.params) (r : R) : R :=
  (PI / 2) * (tanh ((Skyrmion.r0 ps - r) / Skyrmion.delta ps) + 1).

(** The magnetization matrix of [HedgeHog] away from the centre. *)
Definition texture (site : Site) (ps : Skyrmion.params) : M2 :=
  let x := fst (pos site) in
  let y := snd (pos site) in
  let r := radius site in
  ((x / r * sin (theta_at ps r)) * s_x
   + (y / r * sin (theta_at ps r)) * s_y
   + cos (theta_at ps r) * s_z)%mat.

(** The parameters of the first skyrmion cell of the notebook. *)
Definition ps_demo : Skyrmion.params := Skyrmion.mkParams 45 40 10 20 1.

(** The same parameters with a zero domain width. *)
Definition ps_flat : Skyrmion.params := Skyrmion.mkParams 45 40 0 20 1.

(** The conductance matrix in the words of the specification, to compare
    with the loops of [Transport]: off-diagonal entries are transmissions,
    each diagonal entry is the negated sum of the other entries of its row. *)
Definition conductance_spec (T : nat -> nat -> R) : Np.Mat :=
  map (fun i =>
         map (fun j =>
                if (i =? j)%nat then
                  - Np.sum (map (fun k => if (i =? k)%nat then 0 else T i k)
                                (range 4))
                else T i j)
             (range 4))
      (range 4).

(** A solver that meets a zero pivot on every singular system. *)
Definition detects_all : Np.rounding := fun _ _ => None.

(** A spin-valve parameter set, and constant transmissions for examples. *)
Definition p_demo : SpinValve.params := SpinValve.mkParams 2 (12 / 10) PI.
Definition T_const (c : R) : unit -> R -> Skyrmion.params -> nat -> nat -> R :=
  fun _ _ _ _ _ => c.

(** Exchanging the leads 1 and 2, the two Hall probes of the cross. *)
Definition mirror (i : nat) : nat :=
  match i with
  | 1 => 2
  | 2 => 1
  | _ => i
  end%nat.

(** Two skyrmion parameter objects that agree on every attribute the
    domain-width sweep leaves alone. *)
Definition same_fixed (ps ps' : Skyrmion.params) : Prop :=
  Skyrmion.L ps = Skyrmion.L ps' /\ Skyrmion.W ps = Skyrmion.W ps'
  /\ Skyrmion.r0 ps = Skyrmion.r0 ps' /\ Skyrmion.Ex ps = Skyrmion.Ex ps'.

(** The namespace of the angle sweep before the loop, and the same object
    after some earlier use has left an angle in it. *)
Definition params_fresh : SpinValve.namespace :=
  SpinValve.mkNamespace (2 / 10) (23 / 10) None.
Definition params_used : SpinValve.namespace :=
  SpinValve.mkNamespace (2 / 10) (23 / 10) (Some 1).

(** The parameters of the Hall-resistance cell, and the same object with
    another domain width left in it. *)
Definition ps_hall : Skyrmion.params := Skyrmion.mkParams 20 15 3 6 1.
Definition ps_hall_used : Skyrmion.params := Skyrmion.mkParams 20 15 7 6 1.

(** A width-dependent transmission for examples. *)
Definition T_delta : unit -> R -> Skyrmion.params -> nat -> nat -> R :=
  fun _ _ ps _ _ => Skyrmion.delta ps.

(** An angle-dependent transmission for examples. *)
Definition T_angle : unit -> R -> SpinValve.params -> nat -> nat -> R :=
  fun _ _ p _ _ => SpinValve.angle p.

(** The image of a lead under the reflection [y -> -y] of the plane. *)
Definition reflect_y (l : Skyrmion.lead) : Skyrmion.lead :=
  Skyrmion.mkLead
    (fun pos => Skyrmion.cross_section l (fst pos, - snd pos))
    (fst (Skyrmion.symmetry l), - snd (Skyrmion.symmetry l))%Z.

(** The sum of the transmissions out of lead [j] and into lead [j]. *)
Definition total_out (T : nat -> nat -> R) (j : nat) : R :=
  Np.sum (map (fun i => if (i =? j)%nat then 0 else T i j) (range 4)).

Definition total_in (T : nat -> nat -> R) (j : nat) : R :=
  Np.sum (map (fun i => if (i =? j)%nat then 0 else T j i) (range 4)).

(** Transmissions with reflections, for examples. *)
Definition T_reflecting : unit -> R -> Skyrmion.params -> nat -> nat -> R :=
  fun _ _ _ i j => if (i =? j)%nat then 5 else 1.




(** The matrix [a*s_x + b*s_y + c*s_z] of a direction [(a, b, c)]. *)
Definition pauli_vector (a b c : R) : M2 := (a * s_x + b * s_y + c * s_z)%mat.



(** * Properties *)

(** ** Hermitian matrices *)

Lemma Cplx_eq (z w : Cplx) : re z = re w -> im z = im w -> z = w.
Proof. destruct z, w; cbn; intros -> ->; reflexivity. Qed.

Lemma M2_eq (A B : M2) :
  m00 A = m00 B -> m01 A = m01 B -> m10 A = m10 B -> m11 A = m11 B -> A = B.
Proof. destruct A, B; cbn; intros -> -> -> ->; reflexivity. Qed.

Lemma Cconj_involutive (z : Cplx) : Cconj (Cconj z) = z.
Proof. apply Cplx_eq; cbn; ring. Qed.

Lemma Cconj_add (z w : Cplx) : Cconj (Cadd z w) = Cadd (Cconj z) (Cconj w).
Proof. apply Cplx_eq; cbn; ring. Qed.

Lemma Cconj_scale (k : R) (z : Cplx) : Cconj (Cscale k z) = Cscale k (Cconj z).
Proof. apply Cplx_eq; cbn; ring. Qed.

Lemma dagger_involutive (A : M2) : dagger (dagger A) = A.
Proof. apply M2_eq; cbn; apply Cconj_involutive. Qed.

Lemma dagger_add (A B : M2) : dagger (A + B)%mat = (dagger A + dagger B)%mat.
Proof. apply M2_eq; cbn; apply Cconj_add. Qed.

Lemma dagger_scale (k : R) (A : M2) : dagger (k * A)%mat = (k * dagger A)%mat.
Proof. apply M2_eq; cbn; apply Cconj_scale. Qed.

Lemma Hermitian_add (A B : M2) :
  Hermitian A -> Hermitian B -> Hermitian (A + B)%mat.
Proof. unfold Hermitian; intros HA HB; rewrite dagger_add, HA, HB; reflexivity. Qed.

Lemma Hermitian_scale (k : R) (A : M2) : Hermitian A -> Hermitian (k * A)%mat.
Proof. unfold Hermitian; intros HA; rewrite dagger_scale, HA; reflexivity. Qed.

Lemma Hermitian_s_0 : Hermitian s_0.
Proof. apply M2_eq; apply Cplx_eq; cbn; ring. Qed.

Lemma Hermitian_s_z : Hermitian s_z.
Proof. apply M2_eq; apply Cplx_eq; cbn; ring. Qed.

Lemma Hermitian_s_x : Hermitian s_x.
Proof. apply M2_eq; apply Cplx_eq; cbn; ring. Qed.

Lemma Hermitian_s_y : Hermitian s_y.
Proof. apply M2_eq; apply Cplx_eq; cbn; ring. Qed.

Lemma Hermitian_opp (A : M2) : Hermitian A -> Hermitian (Mopp A).
Proof. apply Hermitian_scale. Qed.

Create HintDb herm.
#[global] Hint Resolve Hermitian_add Hermitian_scale Hermitian_opp
  Hermitian_s_0 Hermitian_s_z Hermitian_s_x Hermitian_s_y : herm.

(** ** The on-site functions *)

Lemma Reqb_true (a b : R) : a = b -> Reqb a b = true.
Proof. unfold Reqb; destruct (Req_dec_T a b); congruence. Qed.

Lemma Reqb_false (a b : R) : a <> b -> Reqb a b = false.
Proof. unfold Reqb; destruct (Req_dec_T a b); congruence. Qed.

Lemma py_div_ok (a b : R) : b <> 0 -> py_div a b = Ok (a / b).
Proof. intros Hb; unfold py_div; rewrite Reqb_false by assumption; reflexivity. Qed.

Lemma py_div_zero (a : R) : py_div a 0 = Raise ZeroDivisionError.
Proof. unfold py_div; rewrite Reqb_true by reflexivity; reflexivity. Qed.

(** The value of [HedgeHog] at the centre of the texture. *)
Lemma HedgeHog_origin (site : Site) (ps : Skyrmion.params) :
  Skyrmion.delta ps <> 0 ->
  radius site = 0 ->
  Skyrmion.HedgeHog site ps = Ok (4 * s_0 + Skyrmion.Ex ps * s_z)%mat.
Proof.
  intros Hd Hr. unfold Skyrmion.HedgeHog. unfold radius in Hr.
  destruct (pos site) as [x y]; cbn [fst snd] in Hr.
  rewrite py_div_ok by assumption. cbn [bind].
  rewrite Hr, Reqb_true by reflexivity. reflexivity.
Qed.

(** The value of [HedgeHog] away from the centre. *)
Lemma HedgeHog_away (site : Site) (ps : Skyrmion.params) :
  Skyrmion.delta ps <> 0 ->
  radius site <> 0 ->
  Skyrmion.HedgeHog site ps =
    Ok (4 * s_0 + Skyrmion.Ex ps * texture site ps)%mat.
Proof.
  intros Hd Hr. unfold Skyrmion.HedgeHog, texture, theta_at.
  unfold radius in *.
  destruct (pos site) as [x y]; cbn [fst snd] in *.
  rewrite py_div_ok by assumption. cbn [bind].
  rewrite Reqb_false by assumption. cbn [negb].
  rewrite !py_div_ok by assumption. reflexivity.
Qed.

(** Without the guard on [delta]: a zero domain width raises. *)
Lemma HedgeHog_delta_zero (site : Site) (ps : Skyrmion.params) :
  Skyrmion.delta ps = 0 ->
  Skyrmion.HedgeHog site ps = Raise ZeroDivisionError.
Proof.
  intros Hd. unfold Skyrmion.HedgeHog. destruct (pos site) as [x y].
  rewrite Hd, py_div_zero. reflexivity.
Qed.

Lemma HedgeHog_returns (site : Site) (ps : Skyrmion.params) :
  Skyrmion.delta ps <> 0 -> exists v, Skyrmion.HedgeHog site ps = Ok v.
Proof.
  intros Hd. destruct (Req_dec_T (radius site) 0) as [Hr | Hr].
  - eexists. apply HedgeHog_origin; assumption.
  - eexists. apply HedgeHog_away; assumption.
Qed.

(** C9.  [HedgeHog] is total when [delta] is nonzero: at every site it
    returns a value and raises no [ZeroDivisionError].  The divisions by [r]
    sit in the branch guarded by [r != 0]; where [r = 0] the magnetization
    matrix is [s_z] and the value [4*s_0 + Ex*s_z] is returned. *)
Theorem HedgeHog_total (site : Site) (ps : Skyrmion.params) :
  Skyrmion.delta ps <> 0 ->
  (exists v, Skyrmion.HedgeHog site ps = Ok v)
  /\ (radius site = 0 ->
      Skyrmion.HedgeHog site ps = Ok (4 * s_0 + Skyrmion.Ex ps * s_z)%mat)
  /\ (radius site <> 0 ->
      Skyrmion.HedgeHog site ps =
        Ok (4 * s_0 + Skyrmion.Ex ps * texture site ps)%mat).
Proof.
  intros Hd. split; [| split].
  - apply HedgeHog_returns; assumption.
  - apply HedgeHog_origin; assumption.
  - apply HedgeHog_away; assumption.
Qed.

Lemma radius_lat_0_0 : radius (lat 0 0) = 0.
Proof.
  unfold radius; cbn.
  replace (0 * (0 * 1) + 0 * (0 * 1)) with 0 by ring. apply sqrt_0.
Qed.

Lemma HedgeHog_total_witness :
  Skyrmion.HedgeHog (lat 0 0) ps_demo = Ok (4 * s_0 + 1 * s_z)%mat.
Proof.
  refine (proj1 (proj2 (HedgeHog_total (lat 0 0) ps_demo _)) radius_lat_0_0).
  cbn. lra.
Defined.

(** ** Hermiticity of the on-site values and of the Hamiltonians *)

Lemma onsite_Hermitian (site : Site) (p : SpinValve.params) :
  Hermitian (SpinValve.onsite site p).
Proof.
  unfold SpinValve.onsite.
  destruct (_ && _); [| destruct (_ && _)]; auto 6 with herm.
Qed.

Lemma Lead_Pot_Hermitian (site : Site) (ps : Skyrmion.params) :
  Hermitian (Skyrmion.Lead_Pot site ps).
Proof. unfold Skyrmion.Lead_Pot; auto with herm. Qed.

Lemma texture_Hermitian (site : Site) (ps : Skyrmion.params) :
  Hermitian (texture site ps).
Proof. unfold texture; auto 6 with herm. Qed.

Lemma HedgeHog_Hermitian (site : Site) (ps : Skyrmion.params) (m : M2) :
  Skyrmion.HedgeHog site ps = Ok m -> Hermitian m.
Proof.
  intros Hm.
  destruct (Req_dec_T (Skyrmion.delta ps) 0) as [Hd | Hd].
  - rewrite HedgeHog_delta_zero in Hm by assumption. discriminate.
  - destruct (Req_dec_T (radius site) 0) as [Hr | Hr].
    + rewrite HedgeHog_origin in Hm by assumption.
      injection Hm as <-. auto with herm.
    + rewrite HedgeHog_away in Hm by assumption.
      injection Hm as <-. auto using texture_Hermitian with herm.
Qed.

Lemma tag_eqb_sym (a b : Kwant.tag) : Kwant.tag_eqb a b = Kwant.tag_eqb b a.
Proof. unfold Kwant.tag_eqb; rewrite (Z.eqb_sym (fst a)), (Z.eqb_sym (snd a)); reflexivity. Qed.

Lemma tag_eqb_eq (a b : Kwant.tag) : Kwant.tag_eqb a b = true -> a = b.
Proof.
  destruct a, b; unfold Kwant.tag_eqb; cbn.
  intros [->%Z.eqb_eq ->%Z.eqb_eq]%andb_prop; reflexivity.
Qed.

Lemma is_hopping_one_way (a b : Kwant.tag) :
  Kwant.is_hopping a b = true -> Kwant.is_hopping b a = false.
Proof.
  destruct a as [ax ay], b as [bx by_]; unfold Kwant.is_hopping, Kwant.tag_eqb, Kwant.shift; cbn.
  intros Hab. apply orb_prop in Hab.
  apply orb_false_iff; split; apply andb_false_iff;
    destruct Hab as [[?%Z.eqb_eq ?%Z.eqb_eq]%andb_prop | [?%Z.eqb_eq ?%Z.eqb_eq]%andb_prop];
    rewrite !Z.eqb_neq; lia.
Qed.

(** A Hamiltonian whose on-site values are Hermitian is Hermitian: the
    block from [b] to [a] is the conjugate transpose of the block from [a]
    to [b]. *)
Lemma hamiltonian_Hermitian (onsite : Site -> result M2) (hopping : M2)
    (a b : Kwant.tag) (m : M2) :
  (forall site v, onsite site = Ok v -> Hermitian v) ->
  Kwant.hamiltonian onsite hopping a b = Ok m ->
  Kwant.hamiltonian onsite hopping b a = Ok (dagger m).
Proof.
  intros Hon. unfold Kwant.hamiltonian.
  rewrite (tag_eqb_sym b a).
  destruct (Kwant.tag_eqb a b) eqn:Eab.
  - apply tag_eqb_eq in Eab; subst b. intros Hm.
    rewrite (Hon _ _ Hm). exact Hm.
  - destruct (Kwant.is_hopping a b) eqn:Hab.
    + rewrite (is_hopping_one_way _ _ Hab). intros [= <-]. reflexivity.
    + destruct (Kwant.is_hopping b a) eqn:Hba.
      * intros [= <-]. rewrite dagger_involutive. reflexivity.
      * intros [= <-]. f_equal. apply M2_eq; apply Cplx_eq; cbn; ring.
Qed.

Lemma hamiltonian_total (onsite : Site -> result M2) (hopping : M2)
    (a b : Kwant.tag) :
  (forall site, exists v, onsite site = Ok v) ->
  exists m, Kwant.hamiltonian onsite hopping a b = Ok m.
Proof.
  intros Hon. unfold Kwant.hamiltonian.
  destruct (Kwant.tag_eqb a b); [apply Hon |].
  destruct (Kwant.is_hopping a b); [eexists; reflexivity |].
  destruct (Kwant.is_hopping b a); eexists; reflexivity.
Qed.

(** C10, amended.  At every site, [onsite] and [Lead_Pot] return a Hermitian
    2x2 matrix for every parameter set, and [HedgeHog] returns a Hermitian
    2x2 matrix for every parameter set whose [delta] is nonzero; the
    Hamiltonians assembled from these values (spin valve, skyrmion, skyrmion
    leads) are then Hermitian: the block between [b] and [a] is the
    conjugate transpose of the block between [a] and [b]. *)
Theorem onsite_values_Hermitian (site : Site) (p : SpinValve.params)
    (ps : Skyrmion.params) (a b : Kwant.tag) :
  Skyrmion.delta ps <> 0 ->
  Hermitian (SpinValve.onsite site p)
  /\ Hermitian (Skyrmion.Lead_Pot site ps)
  /\ (exists m, Skyrmion.HedgeHog site ps = Ok m /\ Hermitian m)
  /\ (exists m, SpinValve.H p a b = Ok m /\ SpinValve.H p b a = Ok (dagger m))
  /\ (exists m, Skyrmion.H ps a b = Ok m /\ Skyrmion.H ps b a = Ok (dagger m))
  /\ (exists m, Skyrmion.H_lead ps a b = Ok m
                /\ Skyrmion.H_lead ps b a = Ok (dagger m)).
Proof.
  intros Hd.
  split; [apply onsite_Hermitian |].
  split; [apply Lead_Pot_Hermitian |].
  split.
  { destruct (HedgeHog_returns site ps Hd) as [m Hm].
    exists m; split; [exact Hm | exact (HedgeHog_Hermitian _ _ _ Hm)]. }
  split; [| split].
  - destruct (hamiltonian_total (fun s => Ok (SpinValve.onsite s p)) s_0 a b)
      as [m Hm]; [intros s; eexists; reflexivity |].
    exists m; split; [exact Hm |].
    apply hamiltonian_Hermitian; [| exact Hm].
    intros s v [= <-]; apply onsite_Hermitian.
  - destruct (hamiltonian_total (fun s => Skyrmion.HedgeHog s ps) (Mopp s_0) a b)
      as [m Hm]; [intros s; exact (HedgeHog_returns s ps Hd) |].
    exists m; split; [exact Hm |].
    apply hamiltonian_Hermitian; [| exact Hm].
    intros s v; apply HedgeHog_Hermitian.
  - destruct (hamiltonian_total (fun s => Ok (Skyrmion.Lead_Pot s ps)) (Mopp s_0) a b)
      as [m Hm]; [intros s; eexists; reflexivity |].
    exists m; split; [exact Hm |].
    apply hamiltonian_Hermitian; [| exact Hm].
    intros s v [= <-]; apply Lead_Pot_Hermitian.
Qed.

Lemma onsite_values_Hermitian_witness :
  Hermitian (SpinValve.onsite (lat 15 3) p_demo)
  /\ Hermitian (Skyrmion.Lead_Pot (lat 0 0) ps_demo)
  /\ exists m, Skyrmion.HedgeHog (lat 15 3) ps_demo = Ok m /\ Hermitian m.
Proof.
  assert (Hd : Skyrmion.delta ps_demo <> 0) by (cbn; lra).
  split; [| split].
  - exact (proj1 (onsite_values_Hermitian (lat 15 3) p_demo ps_demo
                    (0, 0)%Z (1, 0)%Z Hd)).
  - exact (proj1 (proj2 (onsite_values_Hermitian (lat 0 0) p_demo ps_demo
                           (0, 0)%Z (1, 0)%Z Hd))).
  - exact (proj1 (proj2 (proj2 (onsite_values_Hermitian (lat 15 3) p_demo
                                   ps_demo (0, 0)%Z (1, 0)%Z Hd)))).
Defined.

(** With [delta = 0] the call [HedgeHog(site, ps)] raises
    [ZeroDivisionError] and returns no matrix, Hermitian or other. *)
Lemma HedgeHog_flat_raises :
  Skyrmion.HedgeHog (lat 0 0) ps_flat = Raise ZeroDivisionError
  /\ ~ (exists m, Skyrmion.HedgeHog (lat 0 0) ps_flat = Ok m /\ Hermitian m).
Proof.
  assert (E : Skyrmion.HedgeHog (lat 0 0) ps_flat = Raise ZeroDivisionError)
    by (apply HedgeHog_delta_zero; reflexivity).
  split; [exact E |].
  intros [m [Hm _]]. rewrite E in Hm. discriminate.
Qed.

(** Equality of lists of reals, entry by entry. *)
Ltac list_eq :=
  repeat match goal with
         | |- _ :: _ = _ :: _ => apply f_equal2
         | |- @nil _ = @nil _ => reflexivity
         | |- @eq R _ _ => ring
         end.

(** ** The linear solver *)

Lemma shape_3_3 (A : Np.Mat) :
  Np.is_shape 3 3 A = true ->
  exists a b c d e f g h i, A = [[a; b; c]; [d; e; f]; [g; h; i]].
Proof.
  unfold Np.is_shape. intros [HA Hrows]%andb_prop.
  apply Nat.eqb_eq in HA.
  destruct A as [| r1 [| r2 [| r3 [| ? ?]]]]; try discriminate HA.
  cbn in Hrows.
  repeat match goal with
         | H : _ && _ = true |- _ => apply andb_prop in H; destruct H
         | H : (_ =? _)%nat = true |- _ => apply Nat.eqb_eq in H
         end.
  destruct r1 as [| a [| b [| c [| ? ?]]]]; try discriminate.
  destruct r2 as [| d [| e [| f [| ? ?]]]]; try discriminate.
  destruct r3 as [| g [| h [| i [| ? ?]]]]; try discriminate.
  now exists a, b, c, d, e, f, g, h, i.
Qed.

Lemma length_3 (V : Np.Vec) :
  length V = 3%nat -> exists x y z, V = [x; y; z].
Proof.
  destruct V as [| x [| y [| z [| ? ?]]]]; try discriminate.
  intros _; now exists x, y, z.
Qed.

(** On a nonsingular 3x3 system the solver returns a solution. *)
Lemma linalg_solve_sound (lapack : Np.rounding) (A : Np.Mat) (b : Np.Vec) :
  Np.is_shape 3 3 A = true -> length b = 3%nat -> Np.det3 A <> 0 ->
  exists V, Np.linalg_solve lapack A b = Ok V
            /\ length V = 3%nat
            /\ Np.matvec A V = b.
Proof.
  intros HA Hb Hdet.
  destruct (shape_3_3 A HA) as (a11 & a12 & a13 & a21 & a22 & a23
                                & a31 & a32 & a33 & ->).
  destruct (length_3 b Hb) as (b1 & b2 & b3 & ->).
  unfold Np.linalg_solve.
  rewrite (Reqb_false _ _ Hdet). cbn [Np.is_shape length Nat.eqb forallb andb negb].
  eexists; split; [reflexivity |]. split; [reflexivity |].
  unfold Np.det3, Np.entry in Hdet; cbn in Hdet.
  unfold Np.matvec, Np.dot, Np.sum, Np.det3, Np.replace_col, Np.entry; cbn.
  repeat f_equal; field; exact Hdet.
Qed.


Lemma Reqb_eq (a b : R) : Reqb a b = true -> a = b.
Proof. unfold Reqb; destruct (Req_dec_T a b); [trivial | discriminate]. Qed.

(** A 3x3 matrix with a row of zeros is singular. *)
Lemma zero_row_det3 (A : Np.Mat) :
  Np.is_shape 3 3 A = true -> Np.has_zero_row A = true -> Np.det3 A = 0.
Proof.
  intros HA Hz.
  destruct (shape_3_3 A HA) as (a11 & a12 & a13 & a21 & a22 & a23
                                & a31 & a32 & a33 & ->).
  unfold Np.has_zero_row in Hz. cbn in Hz.
  rewrite !orb_false_r, !andb_true_r in Hz.
  unfold Np.det3, Np.entry; cbn.
  repeat match goal with
         | H : _ || _ = true |- _ => apply orb_prop in H; destruct H
         | H : _ && _ = true |- _ => apply andb_prop in H; destruct H
         | H : Reqb _ 0 = true |- _ => apply Reqb_eq in H; subst
         end; ring.
Qed.

(** On a system with a row of zeros the solver raises. *)
Lemma linalg_solve_zero_row (lapack : Np.rounding) (A : Np.Mat) (b : Np.Vec) :
  Np.has_zero_row A = true -> Np.linalg_solve lapack A b = Raise LinAlgError.
Proof.
  intros Hz. unfold Np.linalg_solve.
  destruct (negb _) eqn:Hshape; [reflexivity |].
  apply negb_false_iff, andb_prop in Hshape. destruct Hshape as [HA _].
  rewrite (Reqb_true _ _ (zero_row_det3 A HA Hz)), Hz. reflexivity.
Qed.



(** ** The conductance matrix *)

(** The loops of [Transport] build the matrix of the specification. *)
Lemma conductance_matrix_spec (T : nat -> nat -> R) :
  Skyrmion.conductance_matrix T = Ok (conductance_spec T).
Proof.
  unfold conductance_spec, Np.sum. cbn.
  apply f_equal. list_eq.
Qed.

Lemma conductance_spec_shape (T : nat -> nat -> R) :
  Np.is_shape 4 4 (conductance_spec T) = true.
Proof. reflexivity. Qed.

Lemma slice_conductance_shape (T : nat -> nat -> R) :
  Np.is_shape 3 3 (Np.slice 3 3 (conductance_spec T)) = true.
Proof. reflexivity. Qed.

Lemma conductance_spec_entries (T : nat -> nat -> R) (i j : nat) :
  (i < 4)%nat -> (j < 4)%nat ->
  (i <> j -> Np.entry (conductance_spec T) i j = T i j)
  /\ Np.entry (conductance_spec T) i i = - off_diagonal_sum (conductance_spec T) i
  /\ row_sum (conductance_spec T) i = 0.
Proof.
  intros Hi Hj.
  destruct i as [| [| [| [| i]]]]; try lia;
    destruct j as [| [| [| [| j]]]]; try lia;
    (split; [intros Hne; try congruence; reflexivity |]);
    unfold off_diagonal_sum, row_sum, conductance_spec, Np.sum, Np.entry; cbn;
    split; ring.
Qed.

(** ** [Transport] *)

Section TransportFacts.

Variable FiniteSystem : Type.
Variable transmission : FiniteSystem -> R -> Skyrmion.params -> nat -> nat -> R.
Variable lapack : Np.rounding.

Let Transport := Skyrmion.Transport FiniteSystem transmission lapack.

(** [Transport] as one call of the solver on the reduced system. *)
Lemma Transport_run (Hf : FiniteSystem) (EE : R) (ps : Skyrmion.params) :
  let G := conductance_spec (transmission Hf EE ps) in
  let A := Np.slice 3 3 G in
  Transport Hf EE ps =
    Skyrmion.mkRun [Skyrmion.LinalgSolve A [1; 0; 0]]
      (V <- Np.linalg_solve lapack A [1; 0; 0] ;;
       v2 <- Np.getitem1 V 2 ;;
       v1 <- Np.getitem1 V 1 ;;
       Ok (G, v2 - v1)).
Proof.
  intros G A. unfold Transport, Skyrmion.Transport.
  rewrite conductance_matrix_spec. fold G.
  unfold Skyrmion.rbind, Skyrmion.lift, Skyrmion.solve, Skyrmion.ret.
  cbn [Skyrmion.outcome Skyrmion.calls app]. fold A.
  destruct (Np.linalg_solve lapack A [1; 0; 0]) as [V | e]; cbn [bind];
    [| reflexivity].
  destruct (Np.getitem1 V 2) as [v2 | e]; cbn [bind]; [| reflexivity].
  destruct (Np.getitem1 V 1) as [v1 | e]; cbn [bind]; reflexivity.
Qed.

(** The matrix that [Transport] returns is the one its loops build. *)
Lemma Transport_returns_G (Hf : FiniteSystem) (EE : R) (ps : Skyrmion.params)
    (G : Np.Mat) (Hall : R) :
  Skyrmion.outcome (Transport Hf EE ps) = Ok (G, Hall) ->
  G = conductance_spec (transmission Hf EE ps).
Proof.
  rewrite Transport_run. cbn [Skyrmion.outcome].
  destruct (Np.linalg_solve _ _) as [V | e]; cbn [bind]; [| discriminate].
  destruct (Np.getitem1 V 2) as [v2 | e]; cbn [bind]; [| discriminate].
  destruct (Np.getitem1 V 1) as [v1 | e]; cbn [bind]; [| discriminate].
  intros [= <- _]. reflexivity.
Qed.

Lemma Transport_regular (Hf : FiniteSystem) (EE : R) (ps : Skyrmion.params) :
  let G := conductance_spec (transmission Hf EE ps) in
  let A := Np.slice 3 3 G in
  Np.det3 A <> 0 ->
  exists V,
    Np.linalg_solve lapack A [1; 0; 0] = Ok V
    /\ length V = 3%nat
    /\ Np.matvec A V = [1; 0; 0]
    /\ Skyrmion.outcome (Transport Hf EE ps) = Ok (G, Np.item V 2 - Np.item V 1).
Proof.
  intros G A Hdet.
  destruct (linalg_solve_sound lapack A [1; 0; 0]) as (V & HV & Hlen & Hsol);
    [apply slice_conductance_shape | reflexivity | exact Hdet |].
  exists V. repeat split; try assumption.
  rewrite Transport_run. cbn [Skyrmion.outcome]. fold G A. rewrite HV.
  destruct (length_3 V Hlen) as (x & y & z & ->). reflexivity.
Qed.

(** A row of zeros in the reduced matrix makes [Transport] raise. *)
Lemma Transport_zero_row (Hf : FiniteSystem) (EE : R) (ps : Skyrmion.params) :
  let G := conductance_spec (transmission Hf EE ps) in
  Np.has_zero_row (Np.slice 3 3 G) = true ->
  Skyrmion.outcome (Transport Hf EE ps) = Raise LinAlgError.
Proof.
  intros G Hz. rewrite Transport_run. cbn [Skyrmion.outcome]. fold G.
  rewrite linalg_solve_zero_row by exact Hz. reflexivity.
Qed.



End TransportFacts.

Lemma det3_T_const_1 :
  Np.det3 (Np.slice 3 3 (conductance_spec (T_const 1 tt 2 ps_demo))) <> 0.
Proof. unfold Np.det3, Np.entry, Np.sum, T_const; cbn. lra. Qed.


(** C1.  The matrix [G] returned by [Transport]: each off-diagonal entry
    [G[i,j]] is the transmission from lead [j] to lead [i], each diagonal
    entry is the negated sum of the off-diagonal entries of its row, and
    every row sums to zero. *)
Theorem Transport_conductance_matrix (FiniteSystem : Type)
    (transmission : FiniteSystem -> R -> Skyrmion.params -> nat -> nat -> R)
    (lapack : Np.rounding)
    (Hf : FiniteSystem) (EE : R) (ps : Skyrmion.params)
    (G : Np.Mat) (Hall : R) (i j : nat) :
  Skyrmion.outcome (Skyrmion.Transport FiniteSystem transmission lapack Hf EE ps)
    = Ok (G, Hall) ->
  (i < 4)%nat -> (j < 4)%nat ->
  (i <> j -> Np.entry G i j = transmission Hf EE ps i j)
  /\ Np.entry G i i = - off_diagonal_sum G i
  /\ row_sum G i = 0.
Proof.
  intros HT Hi Hj.
  apply Transport_returns_G in HT. subst G.
  apply conductance_spec_entries; assumption.
Qed.

Lemma Transport_conductance_matrix_witness :
  exists G Hall,
    Skyrmion.outcome (Skyrmion.Transport unit (T_const 1) detects_all tt 2 ps_demo)
      = Ok (G, Hall)
    /\ Np.entry G 0 1 = 1
    /\ Np.entry G 0 0 = - off_diagonal_sum G 0
    /\ row_sum G 0 = 0.
Proof.
  destruct (Transport_regular unit (T_const 1) detects_all tt 2 ps_demo det3_T_const_1)
    as (V & _ & _ & _ & HT).
  eexists; eexists. split; [exact HT |].
  destruct (Transport_conductance_matrix unit (T_const 1) detects_all tt 2 ps_demo _ _
              0%nat 1%nat HT) as (H01 & Hd & Hs); [lia | lia |].
  split; [apply H01; discriminate |]. split; assumption.
Defined.






(** In binary64, without any transmission the first pivot is zero and the
    solver raises. *)
Example Transport64_no_transmission :
  Float64.Transport (fun _ _ => 0%float) = Raise LinAlgError.
Proof. vm_compute. reflexivity. Qed.

(** In binary64, unit transmissions between all leads give no Hall
    resistance. *)
Example Transport64_unit :
  (GH <- Float64.Transport (fun _ _ => 1%float) ;; Ok (snd GH)) = Ok 0%float.
Proof. vm_compute. reflexivity. Qed.

(** ** The parameter sweeps *)

Lemma mapM_app {A B : Type} (f : A -> result B) (xs ys : list A) :
  mapM f (xs ++ ys) = (us <- mapM f xs ;; vs <- mapM f ys ;; Ok (us ++ vs)).
Proof.
  induction xs as [| x xs IH]; cbn.
  - destruct (mapM f ys); reflexivity.
  - destruct (f x) as [y | e]; cbn; [| reflexivity].
    rewrite IH. destruct (mapM f xs) as [us | e]; cbn; [| reflexivity].
    destruct (mapM f ys); reflexivity.
Qed.

Lemma mapM_length {A B : Type} (f : A -> result B) (xs : list A) (ys : list B) :
  mapM f xs = Ok ys -> length ys = length xs.
Proof.
  revert ys; induction xs as [| x xs IH]; cbn; intros ys.
  - intros [= <-]; reflexivity.
  - destruct (f x) as [y | e]; cbn; [| discriminate].
    destruct (mapM f xs) as [us | e]; cbn; [| discriminate].
    intros [= <-]; cbn; f_equal; apply IH; reflexivity.
Qed.

(** Reordering the inputs of [mapM] reorders its outputs with them. *)
Lemma mapM_Permutation {A B : Type} (f : A -> result B) (xs xs' : list A) :
  Permutation xs xs' ->
  forall ys, mapM f xs = Ok ys ->
  exists ys', mapM f xs' = Ok ys'
              /\ Permutation (combine xs ys) (combine xs' ys').
Proof.
  induction 1 as [| x l l' HP IH | x y l | l l' l'' HP1 IH1 HP2 IH2]; intros ys.
  - cbn. intros [= <-]. exists []; split; [reflexivity | constructor].
  - cbn. destruct (f x) as [v | e]; cbn; [| discriminate].
    destruct (mapM f l) as [us | e] eqn:El; cbn; [| discriminate].
    intros [= <-]. destruct (IH us eq_refl) as (us' & -> & HPu).
    exists (v :: us'); split; [reflexivity |]. cbn. now constructor.
  - cbn. destruct (f y) as [v | e]; cbn; [| discriminate].
    destruct (f x) as [w | e]; cbn; [| discriminate].
    destruct (mapM f l) as [us | e]; cbn; [| discriminate].
    intros [= <-]. exists (w :: v :: us); split; [reflexivity |].
    cbn. apply perm_swap.
  - intros Hys. destruct (IH1 ys Hys) as (ys' & Hys' & HPa).
    destruct (IH2 ys' Hys') as (ys'' & Hys'' & HPb).
    exists ys''; split; [exact Hys'' |]. now transitivity (combine l' ys').
Qed.

Lemma combine_map_Permutation {A B : Type} (f : A -> B) (xs xs' : list A) :
  Permutation xs xs' ->
  Permutation (combine xs (map f xs)) (combine xs' (map f xs')).
Proof.
  assert (E : forall l, combine l (map f l) = map (fun a => (a, f a)) l).
  { induction l as [| a l IH]; cbn; [reflexivity | now rewrite IH]. }
  intros HP. rewrite !E. now apply Permutation_map.
Qed.

Section SpinValveSweep.

Variable FiniteSystem : Type.
Variable transmission : FiniteSystem -> R -> SpinValve.params -> nat -> nat -> R.
Variable Hf : FiniteSystem.

Let body := SpinValve.sweep_body FiniteSystem transmission Hf.
Let point := SpinValve.point FiniteSystem transmission Hf.

(** One iteration overwrites the angle before anything reads it. *)
Lemma angle_sweep_body (ns : SpinValve.namespace) (data : list R) (a : R) :
  body (ns, data) a =
    Ok (SpinValve.set_angle ns a,
        data ++ [point (SpinValve.ns_Exc ns) (SpinValve.ns_E ns) a]).
Proof. reflexivity. Qed.

Lemma angle_sweep_loop (angles : list R) :
  forall (ns : SpinValve.namespace) (data : list R),
    for_each angles body (ns, data) =
      Ok (fold_left SpinValve.set_angle angles ns,
          data ++ map (point (SpinValve.ns_Exc ns) (SpinValve.ns_E ns)) angles).
Proof.
  induction angles as [| a angles IH]; intros ns data.
  - cbn. now rewrite app_nil_r.
  - cbn [for_each]. rewrite angle_sweep_body. cbn [bind].
    rewrite IH. cbn [SpinValve.set_angle SpinValve.ns_Exc SpinValve.ns_E
                     fold_left map].
    now rewrite <- app_assoc.
Qed.

End SpinValveSweep.

Section SkyrmionSweep.

Variable FiniteSystem : Type.
Variable transmission : FiniteSystem -> R -> Skyrmion.params -> nat -> nat -> R.
Variable lapack : Np.rounding.
Variable Hf : FiniteSystem.

Let body := Skyrmion.sweep_body FiniteSystem transmission lapack Hf.
Let point := Skyrmion.point FiniteSystem transmission lapack Hf.

Lemma set_delta_same_fixed (ps ps' : Skyrmion.params) (EE : R) :
  same_fixed ps ps' -> Skyrmion.set_delta ps' EE = Skyrmion.set_delta ps EE.
Proof.
  intros (HL & HW & Hr & HE). unfold Skyrmion.set_delta.
  now rewrite HL, HW, Hr, HE.
Qed.

Lemma same_fixed_set_delta (ps ps' : Skyrmion.params) (EE : R) :
  same_fixed ps ps' -> same_fixed ps (Skyrmion.set_delta ps' EE).
Proof. intros H; exact H. Qed.

(** One iteration overwrites the domain width before [Transport] reads it. *)
Lemma hall_sweep_body (ps0 ps : Skyrmion.params) (data : list R) (EE : R) :
  same_fixed ps0 ps ->
  Skyrmion.outcome (body (ps, data) EE) =
    (h <- point ps0 EE ;; Ok (Skyrmion.set_delta ps EE, data ++ [h])).
Proof.
  intros Hsame. unfold body, point, Skyrmion.sweep_body, Skyrmion.point.
  rewrite (set_delta_same_fixed ps0 ps EE Hsame).
  unfold Skyrmion.rbind.
  destruct (Skyrmion.outcome (Skyrmion.Transport _ _ _ _ _ _)) as [[G Hall] | e];
    reflexivity.
Qed.

Lemma hall_sweep_loop (ps0 : Skyrmion.params) (Es : list R) :
  forall (ps : Skyrmion.params) (data : list R),
    same_fixed ps0 ps ->
    Skyrmion.outcome (Skyrmion.for_each_run Es body (ps, data)) =
      (hs <- mapM (point ps0) Es ;;
       Ok (fold_left Skyrmion.set_delta Es ps, data ++ hs)).
Proof.
  induction Es as [| EE Es IH]; intros ps data Hsame.
  - cbn. now rewrite app_nil_r.
  - cbn [Skyrmion.for_each_run mapM fold_left].
    unfold Skyrmion.rbind at 1.
    rewrite (hall_sweep_body ps0 ps data EE Hsame).
    destruct (point ps0 EE) as [h | e]; cbn [bind Skyrmion.outcome]; [| reflexivity].
    rewrite IH by (apply same_fixed_set_delta; exact Hsame).
    destruct (mapM (point ps0) Es) as [hs | e]; cbn [bind]; [| reflexivity].
    now rewrite <- app_assoc.
Qed.

End SkyrmionSweep.

(** C8.  Each sweep point is an independent computation.  In the angle
    sweep the value recorded for an angle [a] is [point Hf Exc E a], a
    function of the finalized system, the fixed exchange constant and energy,
    and [a]; in the domain-width sweep the value recorded for a width [EE]
    is the Hall resistance of [Transport(Hf, 2, ps)] with [ps.delta = EE].
    What an earlier iteration, or an earlier use, left in the swept
    attribute of the shared object changes nothing: started from another
    state of that attribute, with the points reordered, or run on one point
    alone, a sweep records the same value at each point. *)
Theorem sweep_points_independent (FiniteSystem : Type)
    (T_valve : FiniteSystem -> R -> SpinValve.params -> nat -> nat -> R)
    (T_hall : FiniteSystem -> R -> Skyrmion.params -> nat -> nat -> R)
    (lapack : Np.rounding)
    (Hf : FiniteSystem)
    (params params' : SpinValve.namespace) (angles angles' : list R)
    (ps ps' : Skyrmion.params) (Es Es' : list R) :
  SpinValve.ns_Exc params' = SpinValve.ns_Exc params ->
  SpinValve.ns_E params' = SpinValve.ns_E params ->
  same_fixed ps ps' ->
  Permutation angles angles' ->
  Permutation Es Es' ->
  let sweep := SpinValve.sweep FiniteSystem T_valve Hf in
  let f := SpinValve.point FiniteSystem T_valve Hf
             (SpinValve.ns_Exc params) (SpinValve.ns_E params) in
  let hall_sweep := Skyrmion.sweep FiniteSystem T_hall lapack Hf in
  let g := Skyrmion.point FiniteSystem T_hall lapack Hf ps in
  sweep params angles
    = Ok (fold_left SpinValve.set_angle angles params, map f angles)
  /\ sweep params' angles'
     = Ok (fold_left SpinValve.set_angle angles' params', map f angles')
  /\ Permutation (combine angles (map f angles))
                 (combine angles' (map f angles'))
  /\ (forall a, sweep params' [a] = Ok (SpinValve.set_angle params' a, [f a]))
  /\ Skyrmion.outcome (hall_sweep ps Es)
     = (hs <- mapM g Es ;; Ok (fold_left Skyrmion.set_delta Es ps, hs))
  /\ Skyrmion.outcome (hall_sweep ps' Es')
     = (hs <- mapM g Es' ;; Ok (fold_left Skyrmion.set_delta Es' ps', hs))
  /\ (forall hs, mapM g Es = Ok hs ->
        exists hs', mapM g Es' = Ok hs'
                    /\ Permutation (combine Es hs) (combine Es' hs'))
  /\ (forall EE, Skyrmion.outcome (hall_sweep ps' [EE])
                 = (h <- g EE ;; Ok (Skyrmion.set_delta ps' EE, [h]))).
Proof.
  intros HExc HE Hsame Hangles HEs sweep f hall_sweep g.
  assert (Hsweep : forall ns l,
             SpinValve.ns_Exc ns = SpinValve.ns_Exc params ->
             SpinValve.ns_E ns = SpinValve.ns_E params ->
             sweep ns l = Ok (fold_left SpinValve.set_angle l ns, map f l)).
  { intros ns l H1 H2. unfold sweep, SpinValve.sweep.
    rewrite angle_sweep_loop, H1, H2. reflexivity. }
  assert (Hhall : forall ps1 l,
             same_fixed ps ps1 ->
             Skyrmion.outcome (hall_sweep ps1 l)
             = (hs <- mapM g l ;; Ok (fold_left Skyrmion.set_delta l ps1, hs))).
  { intros ps1 l H1. unfold hall_sweep, Skyrmion.sweep.
    rewrite (hall_sweep_loop FiniteSystem T_hall lapack Hf ps l ps1 [] H1).
    reflexivity. }
  split; [apply Hsweep; reflexivity |].
  split; [apply Hsweep; assumption |].
  split; [apply combine_map_Permutation; assumption |].
  split; [intros a; apply (Hsweep params' [a]); assumption |].
  split; [apply Hhall; repeat split |].
  split; [apply Hhall; assumption |].
  split; [intros hs; apply mapM_Permutation; assumption |].
  intros EE. rewrite (Hhall ps' [EE] Hsame). cbn [mapM fold_left].
  destruct (g EE); reflexivity.
Qed.

Lemma sweep_points_independent_witness :
  SpinValve.sweep unit T_angle tt params_fresh [0; PI]
    = Ok (SpinValve.mkNamespace (2 / 10) (23 / 10) (Some PI), [0; PI])
  /\ SpinValve.sweep unit T_angle tt params_used [PI; 0]
     = Ok (SpinValve.mkNamespace (2 / 10) (23 / 10) (Some 0), [PI; 0])
  /\ SpinValve.sweep unit T_angle tt params_used [PI]
     = Ok (SpinValve.mkNamespace (2 / 10) (23 / 10) (Some PI), [PI]).
Proof.
  destruct (sweep_points_independent unit T_angle T_delta detects_all tt
              params_fresh params_used [0; PI] [PI; 0]
              ps_hall ps_hall_used [1; 2] [2; 1])
    as (H1 & H2 & _ & H4 & _).
  - reflexivity.
  - reflexivity.
  - repeat split.
  - apply perm_swap.
  - apply perm_swap.
  - split; [exact H1 |]. split; [exact H2 | exact (H4 PI)].
Defined.

(** ** Evaluation on the notebook's values *)

Lemma Rltb_true (a b : R) : a < b -> Rltb a b = true.
Proof. unfold Rltb; destruct (Rlt_dec a b); [reflexivity | contradiction]. Qed.

Lemma Rltb_false (a b : R) : ~ a < b -> Rltb a b = false.
Proof. unfold Rltb; destruct (Rlt_dec a b); [contradiction | reflexivity]. Qed.

(** A site inside the first magnet. *)
Example onsite_first_magnet :
  SpinValve.onsite (lat 15 3) p_demo = (4 * s_0 + 2 * s_z)%mat.
Proof.
  unfold SpinValve.onsite, SpinValve.W; cbn [pos lat fst].
  rewrite !Rltb_true by lra. reflexivity.
Qed.

(** A site inside the second magnet. *)
Example onsite_second_magnet :
  SpinValve.onsite (lat 35 0) p_demo
  = (4 * s_0 + (2 * cos PI) * s_z + (2 * sin PI) * s_x)%mat.
Proof.
  unfold SpinValve.onsite, SpinValve.W; cbn [pos lat fst].
  rewrite (Rltb_true 10 35), (Rltb_false 35 (2 * 10)) by lra.
  rewrite !Rltb_true by lra. reflexivity.
Qed.

(** The comparisons are strict: the column [x = W] is in the spacer. *)
Example onsite_boundary :
  SpinValve.onsite (lat 10 0) p_demo = (4 * s_0)%mat.
Proof.
  unfold SpinValve.onsite, SpinValve.W; cbn [pos lat fst].
  rewrite (Rltb_false 10 10), (Rltb_false (3 * 10) 10) by lra. reflexivity.
Qed.

Example radius_3_4 : radius (lat 3 4) = 5.
Proof.
  unfold radius; cbn [pos lat fst snd].
  replace (3 ^ 2 + 4 ^ 2) with (5 * 5) by ring.
  apply sqrt_square; lra.
Qed.

(** The conductance matrix for unit transmissions between all leads. *)
Example conductance_matrix_unit :
  Skyrmion.conductance_matrix (fun _ _ => 1)
  = Ok [[- (0 + 1 + 1 + 1); 1; 1; 1];
        [1; - (0 + 1 + 1 + 1); 1; 1];
        [1; 1; - (0 + 1 + 1 + 1); 1];
        [1; 1; 1; - (0 + 1 + 1 + 1)]].
Proof. reflexivity. Qed.

(** An index outside the array raises. *)
Example setitem_out_of_range :
  Np.setitem (Np.zeros 4 4) 4 0 1 = Raise IndexError.
Proof. reflexivity. Qed.

Lemma linspace_length (a b : R) (n : nat) : length (linspace a b n) = n.
Proof. unfold linspace. now rewrite length_map, length_seq. Qed.

(** ** Zero exchange *)

(** With [Ex = 0] both on-site functions of the skyrmion system return the
    spin-independent matrix [4*s_0]. *)
Lemma Lead_Pot_Ex_zero (site : Site) (ps : Skyrmion.params) :
  Skyrmion.Ex ps = 0 -> Skyrmion.Lead_Pot site ps = (4 * s_0)%mat.
Proof.
  intros HE. unfold Skyrmion.Lead_Pot. rewrite HE.
  apply M2_eq; apply Cplx_eq; cbn; ring.
Qed.

Lemma HedgeHog_Ex_zero (site : Site) (ps : Skyrmion.params) :
  Skyrmion.delta ps <> 0 -> Skyrmion.Ex ps = 0 ->
  Skyrmion.HedgeHog site ps = Ok (4 * s_0)%mat.
Proof.
  intros Hd HE.
  destruct (Req_dec_T (radius site) 0) as [Hr | Hr].
  - rewrite HedgeHog_origin by assumption. rewrite HE. f_equal.
    apply M2_eq; apply Cplx_eq; cbn; ring.
  - rewrite HedgeHog_away by assumption. rewrite HE. f_equal.
    apply M2_eq; apply Cplx_eq; cbn; ring.
Qed.

(** ** Dependence of [onsite] on the angle *)

Lemma cos_shift_2PI (a : R) : cos (a + 2 * PI) = cos a.
Proof. rewrite cos_plus, cos_2PI, sin_2PI. ring. Qed.

Lemma sin_shift_2PI (a : R) : sin (a + 2 * PI) = sin a.
Proof. rewrite sin_plus, cos_2PI, sin_2PI. ring. Qed.

(** X18.  Over the reals [onsite] has period [2*pi] in the angle. *)
Lemma onsite_angle_periodic (site : Site) (exc e a : R) :
  SpinValve.onsite site (SpinValve.mkParams exc e (a + 2 * PI))
  = SpinValve.onsite site (SpinValve.mkParams exc e a).
Proof.
  unfold SpinValve.onsite; cbn [SpinValve.Exc SpinValve.angle].
  now rewrite cos_shift_2PI, sin_shift_2PI.
Qed.

(** X19.  The angle [2*pi - a] gives the on-site matrix of the angle [a] rotated
    by [pi] about the z axis of spin space, that is, conjugated by [s_z]. *)
Lemma onsite_angle_mirror (site : Site) (exc e a : R) :
  SpinValve.onsite site (SpinValve.mkParams exc e (2 * PI - a))
  = Mmul s_z (Mmul (SpinValve.onsite site (SpinValve.mkParams exc e a)) s_z).
Proof.
  unfold SpinValve.onsite; cbn [SpinValve.Exc SpinValve.angle].
  assert (Hc : cos (2 * PI - a) = cos a)
    by (rewrite cos_minus, cos_2PI, sin_2PI; ring).
  assert (Hs : sin (2 * PI - a) = - sin a)
    by (rewrite sin_minus, cos_2PI, sin_2PI; ring).
  rewrite Hc, Hs.
  destruct (_ && _); [| destruct (_ && _)];
    apply M2_eq; apply Cplx_eq; cbn; ring.
Qed.

(** ** The sweeps on the notebook's grids *)

(** The angle sweep of the notebook completes and records 100 values. *)
Lemma angle_sweep_notebook (FiniteSystem : Type)
    (transmission : FiniteSystem -> R -> SpinValve.params -> nat -> nat -> R)
    (Hf : FiniteSystem) :
  exists ns data,
    SpinValve.sweep FiniteSystem transmission Hf params_fresh SpinValve.angles
      = Ok (ns, data)
    /\ length data = 100%nat.
Proof.
  unfold SpinValve.sweep. rewrite angle_sweep_loop.
  eexists; eexists; split; [reflexivity |].
  cbn [app]. rewrite length_map. apply linspace_length.
Qed.

(** The domain-width sweep of the notebook visits 50 widths. *)
Lemma Es_length : length Skyrmion.Es = 50%nat.
Proof. apply linspace_length. Qed.

(** ** The quantum wire *)

(** X27.  [plot_transmission] plots, energy by energy, the transmission from
    lead 0 to lead 1 and the reflection back into lead 0. *)
Lemma plot_transmission_series (FiniteSystem : Type)
    (transmission : FiniteSystem -> R -> nat -> nat -> R)
    (syst : FiniteSystem) (energies : list R) :
  Scattering.plot_transmission FiniteSystem transmission syst energies
  = (map (fun energy => transmission syst energy 1%nat 0%nat) energies,
     map (fun energy => transmission syst energy 0%nat 0%nat) energies).
Proof.
  unfold Scattering.plot_transmission.
  assert (E : forall trans refl,
             fold_left (Scattering.plot_body FiniteSystem transmission syst)
                       energies (trans, refl)
             = (trans ++ map (fun e => transmission syst e 1%nat 0%nat) energies,
                refl ++ map (fun e => transmission syst e 0%nat 0%nat) energies)).
  { induction energies as [| e energies IH]; intros trans refl; cbn.
    - now rewrite !app_nil_r.
    - rewrite IH, <- !app_assoc. reflexivity. }
  apply E.
Qed.

(** The wire is uniform: its scattering region carries the on-site and
    hopping values of its leads. *)
Lemma make_wire_uniform (W L : nat) (t : R) (lead : Scattering.builder) :
  In lead (snd (Scattering.make_wire W L t)) ->
  Scattering.onsite lead = Scattering.onsite (fst (Scattering.make_wire W L t))
  /\ Scattering.hopping lead
     = Scattering.hopping (fst (Scattering.make_wire W L t)).
Proof.
  cbn. intros [<- | [<- | []]]; split; reflexivity.
Qed.

(** * Further properties of the code *)

(** ** The reduced system of [Transport] *)

(** The matrix depends on the transmissions between the four leads only. *)
Lemma conductance_spec_ext (T T' : nat -> nat -> R) :
  (forall i j, (i < 4)%nat -> (j < 4)%nat -> i <> j -> T i j = T' i j) ->
  conductance_spec T = conductance_spec T'.
Proof.
  intros HT. unfold conductance_spec, Np.sum. cbn.
  rewrite (HT 0%nat 1%nat), (HT 0%nat 2%nat), (HT 0%nat 3%nat), (HT 1%nat 0%nat), (HT 1%nat 2%nat), (HT 1%nat 3%nat),
          (HT 2%nat 0%nat), (HT 2%nat 1%nat), (HT 2%nat 3%nat), (HT 3%nat 0%nat), (HT 3%nat 1%nat), (HT 3%nat 2%nat)
    by lia.
  reflexivity.
Qed.

(** The three equations of the reduced system. *)
Lemma reduced_system (T : nat -> nat -> R) (x y z : R) :
  Np.matvec (Np.slice 3 3 (conductance_spec T)) [x; y; z] = [1; 0; 0]
  <-> (- (T 0%nat 1%nat + T 0%nat 2%nat + T 0%nat 3%nat) * x + T 0%nat 1%nat * y + T 0%nat 2%nat * z = 1
       /\ T 1%nat 0%nat * x - (T 1%nat 0%nat + T 1%nat 2%nat + T 1%nat 3%nat) * y + T 1%nat 2%nat * z = 0
       /\ T 2%nat 0%nat * x + T 2%nat 1%nat * y - (T 2%nat 0%nat + T 2%nat 1%nat + T 2%nat 3%nat) * z = 0).
Proof.
  unfold conductance_spec, Np.matvec, Np.dot, Np.sum. cbn.
  split.
  - intros [= E1 E2 E3].
    split; [| split]; [refine (eq_trans _ E1) | refine (eq_trans _ E2)
                       | refine (eq_trans _ E3)]; ring.
  - intros (E1 & E2 & E3).
    apply f_equal2; [refine (eq_trans _ E1); ring |].
    apply f_equal2; [refine (eq_trans _ E2); ring |].
    apply f_equal2; [refine (eq_trans _ E3); ring | reflexivity].
Qed.

(** The determinant of the reduced system. *)
Lemma reduced_det (T : nat -> nat -> R) :
  Np.det3 (Np.slice 3 3 (conductance_spec T))
  = (- (T 0%nat 1%nat + T 0%nat 2%nat + T 0%nat 3%nat)
       * ((T 1%nat 0%nat + T 1%nat 2%nat + T 1%nat 3%nat) * (T 2%nat 0%nat + T 2%nat 1%nat + T 2%nat 3%nat) - T 1%nat 2%nat * T 2%nat 1%nat)
     + T 0%nat 1%nat * (T 1%nat 0%nat * (T 2%nat 0%nat + T 2%nat 1%nat + T 2%nat 3%nat) + T 1%nat 2%nat * T 2%nat 0%nat)
     + T 0%nat 2%nat * (T 1%nat 0%nat * T 2%nat 1%nat + (T 1%nat 0%nat + T 1%nat 2%nat + T 1%nat 3%nat) * T 2%nat 0%nat)).
Proof.
  unfold Np.det3, Np.entry, conductance_spec, Np.sum. cbn. ring.
Qed.

Section TransportInversion.

Variable FiniteSystem : Type.
Variable transmission : FiniteSystem -> R -> Skyrmion.params -> nat -> nat -> R.
Variable lapack : Np.rounding.

Let Transport := Skyrmion.Transport FiniteSystem transmission lapack.



End TransportInversion.

(** A lead that receives nothing gives a row of zeros. *)
Lemma isolated_lead_zero_row (T : nat -> nat -> R) (i : nat) :
  (i < 3)%nat ->
  (forall j, (j < 4)%nat -> j <> i -> T i j = 0) ->
  Np.has_zero_row (Np.slice 3 3 (conductance_spec T)) = true.
Proof.
  intros Hi Hrow.
  unfold Np.has_zero_row. apply existsb_exists.
  destruct i as [| [| [| i]]]; [| | | lia].
  - eexists. split; [left; reflexivity |].
    unfold Np.sum. cbn.
    rewrite (Hrow 1%nat), (Hrow 2%nat), (Hrow 3%nat) by lia.
    rewrite !Reqb_true by ring. reflexivity.
  - eexists. split; [right; left; reflexivity |].
    unfold Np.sum. cbn.
    rewrite (Hrow 0%nat), (Hrow 2%nat), (Hrow 3%nat) by lia.
    rewrite !Reqb_true by ring. reflexivity.
  - eexists. split; [right; right; left; reflexivity |].
    unfold Np.sum. cbn.
    rewrite (Hrow 0%nat), (Hrow 1%nat), (Hrow 3%nat) by lia.
    rewrite !Reqb_true by ring. reflexivity.
Qed.

(** ** What the Hall measurement depends on *)

(** X1.  [Transport] reads the reflections [transmission(i, i)] into the
    diagonal of [G] and overwrites them: two sets of transmissions that
    agree between distinct leads give the same solver call, the same matrix
    and the same Hall resistance. *)
Theorem Transport_ignores_reflection (FiniteSystem : Type)
    (transmission transmission' :
       FiniteSystem -> R -> Skyrmion.params -> nat -> nat -> R)
    (lapack : Np.rounding)
    (Hf : FiniteSystem) (EE : R) (ps : Skyrmion.params) :
  (forall i j, (i < 4)%nat -> (j < 4)%nat -> i <> j ->
     transmission Hf EE ps i j = transmission' Hf EE ps i j) ->
  Skyrmion.Transport FiniteSystem transmission lapack Hf EE ps
  = Skyrmion.Transport FiniteSystem transmission' lapack Hf EE ps.
Proof.
  intros HT. rewrite !Transport_run. cbv zeta.
  rewrite (conductance_spec_ext _ _ HT). reflexivity.
Qed.

Lemma Transport_ignores_reflection_witness :
  Skyrmion.Transport unit (T_const 1) detects_all tt 2 ps_demo
  = Skyrmion.Transport unit T_reflecting detects_all tt 2 ps_demo.
Proof.
  apply (Transport_ignores_reflection unit (T_const 1) T_reflecting detects_all).
  intros i j Hi Hj Hij. unfold T_const, T_reflecting.
  destruct (Nat.eqb_spec i j); [contradiction | reflexivity].
Defined.








(** X5.  A lead among 0, 1, 2 that receives nothing from the other leads makes
    the reduced matrix singular: [Transport] raises [LinAlgError]. *)
Theorem Transport_isolated_lead_raises (FiniteSystem : Type)
    (transmission : FiniteSystem -> R -> Skyrmion.params -> nat -> nat -> R)
    (lapack : Np.rounding)
    (Hf : FiniteSystem) (EE : R) (ps : Skyrmion.params) (i : nat) :
  (i < 3)%nat ->
  (forall j, (j < 4)%nat -> j <> i -> transmission Hf EE ps i j = 0) ->
  Skyrmion.outcome (Skyrmion.Transport FiniteSystem transmission lapack Hf EE ps)
    = Raise LinAlgError.
Proof.
  intros Hi Hrow. apply Transport_zero_row. cbv zeta.
  apply (isolated_lead_zero_row _ i); assumption.
Qed.

Lemma Transport_isolated_lead_raises_witness :
  Skyrmion.outcome (Skyrmion.Transport unit (T_const 0) detects_all tt 2 ps_demo)
  = Raise LinAlgError.
Proof.
  apply (Transport_isolated_lead_raises unit (T_const 0) detects_all tt 2 ps_demo 1).
  - lia.
  - intros j _ _. reflexivity.
Defined.

(** X6.  When the transmissions out of each lead balance the transmissions into
    it, the voltages of the reduced system, with lead 3 at zero, drive the
    unit current in at lead 0 and out at lead 3, and no current through the
    leads 1 and 2. *)
Theorem conductance_current_balance (T : nat -> nat -> R) (G : Np.Mat)
    (V : Np.Vec) :
  Skyrmion.conductance_matrix T = Ok G ->
  (forall j, (j < 4)%nat -> total_out T j = total_in T j) ->
  length V = 3%nat ->
  Np.matvec (Np.slice 3 3 G) V = [1; 0; 0] ->
  Np.matvec G (V ++ [0]) = [1; 0; 0; -1].
Proof.
  intros HG Hbal Hlen Hsol.
  rewrite conductance_matrix_spec in HG. injection HG as <-.
  destruct (length_3 V Hlen) as (x & y & z & ->).
  apply reduced_system in Hsol. destruct Hsol as (E1 & E2 & E3).
  pose proof (Hbal 0%nat ltac:(lia)) as B0.
  pose proof (Hbal 1%nat ltac:(lia)) as B1.
  pose proof (Hbal 2%nat ltac:(lia)) as B2.
  unfold total_out, total_in, Np.sum in B0, B1, B2. cbn in B0, B1, B2.
  assert (H30 : T 3%nat 0%nat
                = T 0%nat 1%nat + T 0%nat 2%nat + T 0%nat 3%nat
                  - T 1%nat 0%nat - T 2%nat 0%nat) by lra.
  assert (H31 : T 3%nat 1%nat
                = T 1%nat 0%nat + T 1%nat 2%nat + T 1%nat 3%nat
                  - T 0%nat 1%nat - T 2%nat 1%nat) by lra.
  assert (H32 : T 3%nat 2%nat
                = T 2%nat 0%nat + T 2%nat 1%nat + T 2%nat 3%nat
                  - T 0%nat 2%nat - T 1%nat 2%nat) by lra.
  unfold conductance_spec, Np.matvec, Np.dot, Np.sum. cbn.
  rewrite H30, H31, H32.
  apply f_equal2; [refine (eq_trans _ E1); ring |].
  apply f_equal2; [refine (eq_trans _ E2); ring |].
  apply f_equal2; [refine (eq_trans _ E3); ring |].
  apply f_equal2; [| reflexivity].
  lra.
Qed.

Lemma conductance_current_balance_witness :
  Np.matvec (conductance_spec (fun _ _ => 1))
            ([- (1 / 2); - (1 / 4); - (1 / 4)] ++ [0])
  = [1; 0; 0; -1].
Proof.
  apply (conductance_current_balance (fun _ _ => 1)).
  - apply conductance_matrix_spec.
  - intros j _. reflexivity.
  - reflexivity.
  - apply reduced_system. repeat split; field.
Defined.

(** ** What the sweeps leave behind *)

Lemma fold_set_angle_last (angles : list R) :
  angles <> [] ->
  forall ns, fold_left SpinValve.set_angle angles ns
             = SpinValve.set_angle ns (last angles 0).
Proof.
  induction angles as [| a [| b angles] IH]; intros Hne ns.
  - contradiction.
  - reflexivity.
  - change (fold_left SpinValve.set_angle (a :: b :: angles) ns)
      with (fold_left SpinValve.set_angle (b :: angles)
              (SpinValve.set_angle ns a)).
    rewrite IH by discriminate. reflexivity.
Qed.

Lemma fold_set_delta_last (Es : list R) :
  Es <> [] ->
  forall ps, fold_left Skyrmion.set_delta Es ps
             = Skyrmion.set_delta ps (last Es 0).
Proof.
  induction Es as [| a [| b Es] IH]; intros Hne ps.
  - contradiction.
  - reflexivity.
  - change (fold_left Skyrmion.set_delta (a :: b :: Es) ps)
      with (fold_left Skyrmion.set_delta (b :: Es) (Skyrmion.set_delta ps a)).
    rewrite IH by discriminate. reflexivity.
Qed.

(** X9.  The loop [for params.angle in angles] never fails, records one value
    per angle, and leaves the last angle in the shared object [params];
    [Exc] and [E] are as before. *)
Theorem angle_sweep_final_state (FiniteSystem : Type)
    (transmission : FiniteSystem -> R -> SpinValve.params -> nat -> nat -> R)
    (Hf : FiniteSystem) (params : SpinValve.namespace) (angles : list R) :
  angles <> [] ->
  exists data,
    SpinValve.sweep FiniteSystem transmission Hf params angles
      = Ok (SpinValve.mkNamespace (SpinValve.ns_Exc params)
                                  (SpinValve.ns_E params)
                                  (Some (last angles 0)),
            data)
    /\ length data = length angles.
Proof.
  intros Hne. unfold SpinValve.sweep.
  rewrite angle_sweep_loop, fold_set_angle_last by assumption.
  eexists; split; [reflexivity |].
  cbn [app]. apply length_map.
Qed.

Lemma angle_sweep_final_state_witness :
  exists data,
    SpinValve.sweep unit T_angle tt params_fresh [0; 1; PI]
      = Ok (SpinValve.mkNamespace (2 / 10) (23 / 10) (Some PI), data)
    /\ length data = 3%nat.
Proof.
  apply (angle_sweep_final_state unit T_angle tt params_fresh [0; 1; PI]).
  discriminate.
Defined.

Section HallSweepFacts.

Variable FiniteSystem : Type.
Variable transmission : FiniteSystem -> R -> Skyrmion.params -> nat -> nat -> R.
Variable lapack : Np.rounding.
Variable Hf : FiniteSystem.

Let body := Skyrmion.sweep_body FiniteSystem transmission lapack Hf.
Let point := Skyrmion.point FiniteSystem transmission lapack Hf.



Lemma point_regular (ps : Skyrmion.params) (EE : R) :
  Np.det3 (Np.slice 3 3 (conductance_spec
             (transmission Hf 2 (Skyrmion.set_delta ps EE)))) <> 0 ->
  exists h, point ps EE = Ok h.
Proof.
  intros Hdet. unfold point, Skyrmion.point.
  destruct (Transport_regular FiniteSystem transmission lapack Hf 2
              (Skyrmion.set_delta ps EE) Hdet) as (V & _ & _ & _ & ->).
  eexists; reflexivity.
Qed.


Lemma mapM_Forall2 {A B : Type} (f : A -> result B) (xs : list A) :
  forall ys, mapM f xs = Ok ys -> Forall2 (fun x y => f x = Ok y) xs ys.
Proof.
  induction xs as [| x xs IH]; cbn; intros ys.
  - intros [= <-]. constructor.
  - destruct (f x) as [y | e] eqn:Hx; cbn; [| discriminate].
    destruct (mapM f xs) as [us | e]; cbn; [| discriminate].
    intros [= <-]. constructor; [exact Hx | apply IH; reflexivity].
Qed.

(** Every iteration calls the solver once. *)
Lemma hall_body_calls (st : Skyrmion.params * list R) (EE : R) :
  length (Skyrmion.calls (body st EE)) = 1%nat.
Proof.
  destruct st as [ps data]. unfold body, Skyrmion.sweep_body.
  unfold Skyrmion.rbind. rewrite Transport_run. cbv zeta.
  cbn [Skyrmion.outcome Skyrmion.calls].
  destruct (bind _ _) as [[G h] | e]; reflexivity.
Qed.

Lemma hall_loop_calls (Es : list R) :
  forall st,
    (length (Skyrmion.calls (Skyrmion.for_each_run Es body st)) <= length Es)%nat
    /\ (forall st', Skyrmion.outcome (Skyrmion.for_each_run Es body st) = Ok st' ->
          length (Skyrmion.calls (Skyrmion.for_each_run Es body st))
          = length Es).
Proof.
  induction Es as [| EE Es IH]; intros st.
  - cbn. split; [lia | reflexivity].
  - cbn [Skyrmion.for_each_run]. unfold Skyrmion.rbind at 1 2 3.
    pose proof (hall_body_calls st EE) as Hone.
    destruct (Skyrmion.outcome (body st EE)) as [s' | e].
    + cbn [Skyrmion.calls Skyrmion.outcome]. rewrite length_app, Hone.
      destruct (IH s') as [Hle Heq]. split; [cbn; lia |].
      intros st' Hst'. rewrite (Heq st' Hst'). reflexivity.
    + cbn [Skyrmion.calls Skyrmion.outcome]. rewrite Hone.
      split; [cbn; lia | discriminate].
Qed.

End HallSweepFacts.

(** X7.  A domain-width sweep that completes has called the solver once per
    width and recorded the Hall resistance of every width, in order; the
    last width stays in the shared object [ps]. *)
Theorem hall_sweep_completed (FiniteSystem : Type)
    (transmission : FiniteSystem -> R -> Skyrmion.params -> nat -> nat -> R)
    (lapack : Np.rounding)
    (Hf : FiniteSystem) (ps ps' : Skyrmion.params) (Es dataHall : list R) :
  Skyrmion.outcome (Skyrmion.sweep FiniteSystem transmission lapack Hf ps Es)
    = Ok (ps', dataHall) ->
  Es <> [] ->
  length (Skyrmion.calls (Skyrmion.sweep FiniteSystem transmission lapack Hf ps Es))
    = length Es
  /\ Forall2 (fun EE Hall =>
                Skyrmion.point FiniteSystem transmission lapack Hf ps EE = Ok Hall)
             Es dataHall
  /\ ps' = Skyrmion.set_delta ps (last Es 0).
Proof.
  intros Hrun Hne.
  split.
  { unfold Skyrmion.sweep in *.
    exact (proj2 (hall_loop_calls FiniteSystem transmission lapack Hf Es _) _ Hrun). }
  unfold Skyrmion.sweep in Hrun.
  rewrite (hall_sweep_loop FiniteSystem transmission lapack Hf ps Es ps [])
    in Hrun by (repeat split).
  destruct (mapM _ Es) as [hs | e] eqn:Hmap; cbn [bind] in Hrun; [| discriminate].
  injection Hrun as <- <-. cbn [app].
  split; [apply mapM_Forall2; exact Hmap |].
  apply fold_set_delta_last; exact Hne.
Qed.

Lemma det3_T_delta (EE : R) :
  EE <> 0 ->
  Np.det3 (Np.slice 3 3 (conductance_spec
             (T_delta tt 2 (Skyrmion.set_delta ps_hall EE)))) <> 0.
Proof.
  intros HEE. rewrite reduced_det. unfold T_delta; cbn.
  intros H0. apply HEE.
  assert (H3 : EE * EE * EE = 0) by lra.
  apply Rmult_integral in H3 as [H3 | ?]; [| assumption].
  apply Rmult_integral in H3 as [? | ?]; assumption.
Qed.

Lemma hall_sweep_completed_witness :
  exists ps' dataHall,
    Skyrmion.outcome (Skyrmion.sweep unit T_delta detects_all tt ps_hall [1; 2])
      = Ok (ps', dataHall)
    /\ length (Skyrmion.calls (Skyrmion.sweep unit T_delta detects_all tt ps_hall [1; 2]))
       = 2%nat
    /\ ps' = Skyrmion.mkParams 20 15 2 6 1.
Proof.
  assert (Hrun : exists st,
             Skyrmion.outcome (Skyrmion.sweep unit T_delta detects_all tt ps_hall [1; 2])
             = Ok st).
  { unfold Skyrmion.sweep.
    rewrite (hall_sweep_loop unit T_delta detects_all tt ps_hall [1; 2] ps_hall [])
      by (repeat split).
    cbn [mapM].
    destruct (point_regular unit T_delta detects_all tt ps_hall 1) as [h1 ->];
      [apply det3_T_delta; lra |].
    destruct (point_regular unit T_delta detects_all tt ps_hall 2) as [h2 ->];
      [apply det3_T_delta; lra |].
    eexists; reflexivity. }
  destruct Hrun as [[ps' dataHall] Hrun].
  exists ps', dataHall.
  destruct (hall_sweep_completed unit T_delta detects_all tt ps_hall ps' [1; 2] dataHall
              Hrun ltac:(discriminate)) as (Hcalls & _ & Hps).
  split; [exact Hrun |]. split; [exact Hcalls | exact Hps].
Defined.



(** ** The skyrmion texture *)

Lemma radius_sqr (site : Site) :
  radius site * radius site = fst (pos site) ^ 2 + snd (pos site) ^ 2.
Proof. unfold radius. apply sqrt_sqrt. nra. Qed.

Lemma radius_nonneg (site : Site) : 0 <= radius site.
Proof. apply sqrt_pos. Qed.

Lemma pauli_vector_square (a b c : R) :
  a * a + b * b + c * c = 1 ->
  Mmul (pauli_vector a b c) (pauli_vector a b c) = s_0.
Proof.
  intros H1. apply M2_eq; apply Cplx_eq; cbn;
    first [ring | (transitivity (a * a + b * b + c * c); [ring | exact H1])].
Qed.

Lemma pauli_vector_Hermitian (a b c : R) : Hermitian (pauli_vector a b c).
Proof. unfold pauli_vector; auto 6 with herm. Qed.

Lemma texture_unit (site : Site) (ps : Skyrmion.params) :
  radius site <> 0 ->
  Mmul (texture site ps) (texture site ps) = s_0.
Proof.
  intros Hr. unfold texture. apply pauli_vector_square.
  pose proof (radius_sqr site) as Hsq.
  pose proof (sin2_cos2 (theta_at ps (radius site))) as Hsc.
  unfold Rsqr in Hsc.
  set (x := fst (pos site)) in *. set (y := snd (pos site)) in *.
  set (r := radius site) in *.
  set (sn := sin (theta_at ps r)) in *. set (cs := cos (theta_at ps r)) in *.
  transitivity ((x ^ 2 + y ^ 2) / (r * r) * (sn * sn) + cs * cs);
    [field; exact Hr |].
  rewrite <- Hsq.
  replace (r * r / (r * r)) with 1 by (field; exact Hr).
  lra.
Qed.

(** X11.  The exchange term has unit length everywhere: [HedgeHog] returns
    [4*s_0 + Ex*n] with [n] Hermitian and [n n = s_0], so the spin
    splitting is [Ex] at every site. *)
Theorem HedgeHog_unit_magnetization (site : Site) (ps : Skyrmion.params) :
  Skyrmion.delta ps <> 0 ->
  exists n,
    Skyrmion.HedgeHog site ps = Ok (4 * s_0 + Skyrmion.Ex ps * n)%mat
    /\ Mmul n n = s_0
    /\ Hermitian n.
Proof.
  intros Hd. destruct (Req_dec_T (radius site) 0) as [Hr | Hr].
  - exists s_z. split; [apply HedgeHog_origin; assumption |].
    split; [apply M2_eq; apply Cplx_eq; cbn; ring | apply Hermitian_s_z].
  - exists (texture site ps). split; [apply HedgeHog_away; assumption |].
    split; [apply texture_unit; exact Hr | apply texture_Hermitian].
Qed.

Lemma HedgeHog_unit_magnetization_witness :
  exists n,
    Skyrmion.HedgeHog (lat 3 4) ps_demo = Ok (4 * s_0 + 1 * n)%mat
    /\ Mmul n n = s_0.
Proof.
  destruct (HedgeHog_unit_magnetization (lat 3 4) ps_demo) as (n & Hn & Hsq & _).
  - cbn. lra.
  - exists n. split; [exact Hn | exact Hsq].
Defined.

Lemma radius_neg (x y : R) : radius (mkSite (- x, - y)) = radius (mkSite (x, y)).
Proof. unfold radius; cbn [pos fst snd]. f_equal. ring. Qed.

Lemma radius_flip_y (x y : R) : radius (mkSite (x, - y)) = radius (mkSite (x, y)).
Proof. unfold radius; cbn [pos fst snd]. f_equal. ring. Qed.

(** X12.  The texture is a hedgehog.  For a nonzero [delta], the on-site
    matrix at the opposite site [(-x, -y)] is the one at [(x, y)]
    conjugated by [s_z], and the on-site matrix at the mirror site
    [(x, -y)] is the transpose of the one at [(x, y)]. *)
Theorem HedgeHog_symmetries (x y : R) (ps : Skyrmion.params) :
  Skyrmion.delta ps <> 0 ->
  exists m,
    Skyrmion.HedgeHog (mkSite (x, y)) ps = Ok m
    /\ Skyrmion.HedgeHog (mkSite (- x, - y)) ps = Ok (Mmul s_z (Mmul m s_z))
    /\ Skyrmion.HedgeHog (mkSite (x, - y)) ps = Ok (Mtranspose m).
Proof.
  intros Hd.
  pose proof (radius_neg x y) as Hn. pose proof (radius_flip_y x y) as Hf.
  destruct (Req_dec_T (radius (mkSite (x, y))) 0) as [Hr | Hr].
  - eexists. split; [apply HedgeHog_origin; assumption |].
    rewrite !HedgeHog_origin by congruence.
    split; f_equal; apply M2_eq; apply Cplx_eq; cbn; ring.
  - eexists. split; [apply HedgeHog_away; assumption |].
    rewrite !HedgeHog_away by congruence.
    unfold texture. rewrite Hn, Hf. cbn [pos fst snd]. unfold Rdiv.
    split; f_equal; apply M2_eq; apply Cplx_eq; cbn; ring.
Qed.

Lemma HedgeHog_symmetries_witness :
  exists m,
    Skyrmion.HedgeHog (mkSite (3, 4)) ps_demo = Ok m
    /\ Skyrmion.HedgeHog (mkSite (- 3, - 4)) ps_demo = Ok (Mmul s_z (Mmul m s_z))
    /\ Skyrmion.HedgeHog (mkSite (3, - 4)) ps_demo = Ok (Mtranspose m).
Proof.
  apply (HedgeHog_symmetries 3 4 ps_demo). cbn. lra.
Defined.

(** X13.  With [Ex = 0] the scattering region and the leads carry the same
    spin-independent on-site matrix [4*s_0]. *)
Theorem zero_exchange_onsite (site : Site) (ps : Skyrmion.params) :
  Skyrmion.delta ps <> 0 -> Skyrmion.Ex ps = 0 ->
  Skyrmion.HedgeHog site ps = Ok (4 * s_0)%mat
  /\ Skyrmion.Lead_Pot site ps = (4 * s_0)%mat.
Proof.
  intros Hd HE. split.
  - apply HedgeHog_Ex_zero; assumption.
  - apply Lead_Pot_Ex_zero; assumption.
Qed.

Lemma zero_exchange_onsite_witness :
  Skyrmion.HedgeHog (lat 3 4) (Skyrmion.mkParams 45 40 10 20 0) = Ok (4 * s_0)%mat
  /\ Skyrmion.Lead_Pot (lat 3 4) (Skyrmion.mkParams 45 40 10 20 0) = (4 * s_0)%mat.
Proof.
  apply zero_exchange_onsite.
  - cbn. lra.
  - reflexivity.
Defined.

(** ** The maps [Vz] and [Vy] *)

Lemma cosh_pos (q : R) : 0 < cosh q.
Proof.
  unfold cosh. pose proof (exp_pos q). pose proof (exp_pos (- q)). lra.
Qed.

Lemma tanh_bounds (q : R) : -1 < tanh q < 1.
Proof.
  unfold tanh. pose proof (cosh_pos q) as Hc.
  assert (Hlo : - cosh q < sinh q)
    by (unfold cosh, sinh; pose proof (exp_pos q); lra).
  assert (Hhi : sinh q < cosh q)
    by (unfold cosh, sinh; pose proof (exp_pos (- q)); lra).
  split.
  - apply (Rmult_lt_reg_r (cosh q)); [exact Hc |].
    unfold Rdiv. rewrite Rmult_assoc, Rinv_l by lra. lra.
  - apply (Rmult_lt_reg_r (cosh q)); [exact Hc |].
    unfold Rdiv. rewrite Rmult_assoc, Rinv_l by lra. lra.
Qed.

Lemma tanh_zero : tanh 0 = 0.
Proof. unfold tanh. rewrite sinh_0, cosh_0. field. Qed.

Lemma tanh_pos (q : R) : 0 < q -> 0 < tanh q.
Proof.
  intros Hq. unfold tanh. apply Rdiv_lt_0_compat; [| apply cosh_pos].
  rewrite <- sinh_0. apply sinh_lt; exact Hq.
Qed.

Lemma tanh_neg (q : R) : q < 0 -> tanh q < 0.
Proof.
  intros Hq. unfold tanh.
  assert (Hs : sinh q < 0) by (rewrite <- sinh_0; apply sinh_lt; exact Hq).
  pose proof (cosh_pos q) as Hc.
  apply (Rmult_lt_reg_r (cosh q)); [exact Hc |].
  unfold Rdiv. rewrite Rmult_assoc, Rinv_l by lra. lra.
Qed.

(** The polar angle lies between 0 and pi, below pi/2 outside the radius
    [r0] and above it inside. *)
Lemma theta_at_range (ps : Skyrmion.params) (r : R) :
  0 < Skyrmion.delta ps ->
  0 < theta_at ps r < PI
  /\ (r < Skyrmion.r0 ps -> PI / 2 < theta_at ps r)
  /\ (r = Skyrmion.r0 ps -> theta_at ps r = PI / 2)
  /\ (Skyrmion.r0 ps < r -> theta_at ps r < PI / 2).
Proof.
  intros Hd. unfold theta_at.
  set (q := (Skyrmion.r0 ps - r) / Skyrmion.delta ps).
  pose proof (tanh_bounds q) as [Hlo Hhi]. pose proof PI_RGT_0 as Hpi.
  split; [split; nra |]. split; [| split].
  - intros Hr. assert (Hq : 0 < q)
      by (unfold q; apply Rdiv_lt_0_compat; lra).
    pose proof (tanh_pos q Hq). nra.
  - intros ->. unfold q. replace (Skyrmion.r0 ps - Skyrmion.r0 ps) with 0 by ring.
    unfold Rdiv at 2. rewrite Rmult_0_l, tanh_zero. lra.
  - intros Hr. assert (Hq : q < 0).
    { pose proof (Rinv_0_lt_compat _ Hd) as Hinv. unfold q, Rdiv. nra. }
    pose proof (tanh_neg q Hq). nra.
Qed.

Lemma Vz_origin (site : Site) (ps : Skyrmion.params) :
  Skyrmion.delta ps <> 0 -> radius site = 0 ->
  Skyrmion.Vz site ps = Ok (2 * Skyrmion.Ex ps).
Proof.
  intros Hd Hr. unfold Skyrmion.Vz.
  rewrite HedgeHog_origin by assumption. cbn. f_equal. ring.
Qed.

Lemma Vz_away (site : Site) (ps : Skyrmion.params) :
  Skyrmion.delta ps <> 0 -> radius site <> 0 ->
  Skyrmion.Vz site ps
  = Ok (2 * Skyrmion.Ex ps * cos (theta_at ps (radius site))).
Proof.
  intros Hd Hr. unfold Skyrmion.Vz.
  rewrite HedgeHog_away by assumption. unfold texture. cbn. f_equal. ring.
Qed.

(** X14.  The values that the two maps show.  [Vz] is twice the z component of
    the exchange field, [2*Ex*cos(theta)], and [2*Ex] at the centre; [Vy]
    is the y component with the opposite sign, [-Ex*(y/r)*sin(theta)],
    and 0 at the centre; [Vz] never exceeds [2*|Ex|] in absolute value. *)
Theorem Vz_Vy_values (site : Site) (ps : Skyrmion.params) :
  Skyrmion.delta ps <> 0 ->
  (radius site = 0 ->
     Skyrmion.Vz site ps = Ok (2 * Skyrmion.Ex ps)
     /\ Skyrmion.Vy site ps = Ok 0)
  /\ (radius site <> 0 ->
        Skyrmion.Vz site ps
        = Ok (2 * Skyrmion.Ex ps * cos (theta_at ps (radius site)))
        /\ Skyrmion.Vy site ps
           = Ok (- (Skyrmion.Ex ps
                    * (snd (pos site) / radius site
                       * sin (theta_at ps (radius site))))))
  /\ (forall v, Skyrmion.Vz site ps = Ok v ->
                Rabs v <= 2 * Rabs (Skyrmion.Ex ps)).
Proof.
  intros Hd. split; [| split].
  - intros Hr. split; [apply Vz_origin; assumption |].
    unfold Skyrmion.Vy. rewrite HedgeHog_origin by assumption.
    cbn. f_equal. ring.
  - intros Hr. split; [apply Vz_away; assumption |].
    unfold Skyrmion.Vy. rewrite HedgeHog_away by assumption.
    unfold texture. cbn. f_equal. ring.
  - intros v Hv. destruct (Req_dec_T (radius site) 0) as [Hr | Hr].
    + rewrite Vz_origin in Hv by assumption. injection Hv as <-.
      rewrite Rabs_mult, (Rabs_pos_eq 2) by lra. lra.
    + rewrite Vz_away in Hv by assumption. injection Hv as <-.
      rewrite !Rabs_mult, (Rabs_pos_eq 2) by lra.
      pose proof (COS_bound (theta_at ps (radius site))) as [Hlo Hhi].
      assert (Hc : Rabs (cos (theta_at ps (radius site))) <= 1)
        by (apply Rabs_le; lra).
      pose proof (Rabs_pos (Skyrmion.Ex ps)). nra.
Qed.

Lemma radius_3_4' : radius (lat 3 4) <> 0.
Proof. rewrite radius_3_4. lra. Qed.

Lemma Vz_Vy_values_witness :
  Skyrmion.Vz (lat 3 4) ps_demo = Ok (2 * 1 * cos (theta_at ps_demo 5))
  /\ Skyrmion.Vz (lat 0 0) ps_demo = Ok (2 * 1).
Proof.
  assert (Hd : Skyrmion.delta ps_demo <> 0) by (cbn; lra).
  split.
  - rewrite <- radius_3_4.
    exact (proj1 (proj1 (proj2 (Vz_Vy_values (lat 3 4) ps_demo Hd)) radius_3_4')).
  - exact (proj1 (proj1 (Vz_Vy_values (lat 0 0) ps_demo Hd) radius_lat_0_0)).
Defined.

(** X15.  The polarization that [Vz] shows, for a positive width [delta]: inside
    the radius [r0] the exchange field points down ([Vz] is [2*Ex] times a
    negative number), on the circle [r = r0] it lies in the plane
    ([Vz = 0]), outside it points up.  The one exception is the centre
    site, where the guard [r != 0] sets the field up: [Vz = 2*Ex] there,
    although [0 < r0] puts the centre inside. *)
Theorem skyrmion_polarization (site : Site) (ps : Skyrmion.params) :
  0 < Skyrmion.delta ps ->
  (radius site = 0 -> Skyrmion.Vz site ps = Ok (2 * Skyrmion.Ex ps))
  /\ (radius site <> 0 ->
      exists c,
        Skyrmion.Vz site ps = Ok (2 * Skyrmion.Ex ps * c)
        /\ (radius site < Skyrmion.r0 ps -> -1 < c < 0)
        /\ (radius site = Skyrmion.r0 ps -> c = 0)
        /\ (Skyrmion.r0 ps < radius site -> 0 < c < 1)).
Proof.
  intros Hd. assert (Hd' : Skyrmion.delta ps <> 0) by lra.
  split; [intros Hr; apply Vz_origin; assumption |].
  intros Hr. exists (cos (theta_at ps (radius site))).
  split; [apply Vz_away; assumption |].
  destruct (theta_at_range ps (radius site) Hd) as ((H0 & Hpi) & Hin & Hon & Hout).
  pose proof PI_RGT_0 as HPI.
  split; [| split].
  - intros Hlt. specialize (Hin Hlt). split.
    + rewrite <- cos_PI. apply cos_decreasing_1; lra.
    + apply cos_lt_0; lra.
  - intros Heq. rewrite (Hon Heq). apply cos_PI2.
  - intros Hgt. specialize (Hout Hgt). split.
    + apply cos_gt_0; lra.
    + rewrite <- cos_0. apply cos_decreasing_1; lra.
Qed.

Lemma skyrmion_polarization_witness :
  Skyrmion.Vz (lat 0 0) ps_demo = Ok (2 * 1)
  /\ exists c, Skyrmion.Vz (lat 3 4) ps_demo = Ok (2 * 1 * c) /\ -1 < c < 0.
Proof.
  assert (Hd : 0 < Skyrmion.delta ps_demo) by (cbn; lra).
  split.
  - exact (proj1 (skyrmion_polarization (lat 0 0) ps_demo Hd) radius_lat_0_0).
  - destruct (proj2 (skyrmion_polarization (lat 3 4) ps_demo Hd) radius_3_4')
      as (c & Hc & Hin & _).
    exists c. split; [exact Hc |]. apply Hin. rewrite radius_3_4. cbn. lra.
Defined.

(** ** The spin valve on the lattice *)

Lemma Rltb_IZR (a b : Z) : Rltb (IZR a) (IZR b) = (a <? b)%Z.
Proof.
  destruct (Z.ltb_spec a b) as [Hlt | Hge].
  - apply Rltb_true. apply IZR_lt; exact Hlt.
  - apply Rltb_false. intros Hlt. apply lt_IZR in Hlt. lia.
Qed.

Lemma magnet_columns (x : Z) :
  Rltb SpinValve.W (IZR x) && Rltb (IZR x) (2 * SpinValve.W)
  = ((11 <=? x)%Z && (x <=? 19)%Z)
  /\ Rltb (3 * SpinValve.W) (IZR x) && Rltb (IZR x) (4 * SpinValve.W)
     = ((31 <=? x)%Z && (x <=? 39)%Z).
Proof.
  unfold SpinValve.W.
  replace (2 * 10) with 20 by lra.
  replace (3 * 10) with 30 by lra.
  replace (4 * 10) with 40 by lra.
  rewrite !Rltb_IZR.
  split;
    repeat match goal with
           | |- context [(?a <? ?b)%Z] => destruct (Z.ltb_spec a b)
           | |- context [(?a <=? ?b)%Z] => destruct (Z.leb_spec a b)
           end; cbn; try reflexivity; lia.
Qed.

(** X16.  On the lattice the two magnets are the columns 11 to 19 and 31 to 39,
    nine columns each: the bounds [W], [2*W], [3*W] and [4*W] themselves
    belong to the spacers.  The map [V] shows [2*Exc] on the first magnet,
    [2*Exc*cos(angle)] on the second and 0 elsewhere; the component along
    [s_x] does not show. *)
Theorem spin_valve_columns (x y : Z) (p : SpinValve.params) :
  SpinValve.onsite (lat x y) p
  = (if (11 <=? x)%Z && (x <=? 19)%Z then
       (4 * s_0 + SpinValve.Exc p * s_z)%mat
     else if (31 <=? x)%Z && (x <=? 39)%Z then
       (4 * s_0 + (SpinValve.Exc p * cos (SpinValve.angle p)) * s_z
        + (SpinValve.Exc p * sin (SpinValve.angle p)) * s_x)%mat
     else (4 * s_0)%mat)
  /\ SpinValve.V (lat x y) p
     = (if (11 <=? x)%Z && (x <=? 19)%Z then 2 * SpinValve.Exc p
        else if (31 <=? x)%Z && (x <=? 39)%Z then
          2 * SpinValve.Exc p * cos (SpinValve.angle p)
        else 0).
Proof.
  destruct (magnet_columns x) as [H1 H2].
  unfold SpinValve.V, SpinValve.onsite. cbn [pos lat fst].
  rewrite H1, H2.
  split; [reflexivity |].
  destruct ((11 <=? x)%Z && (x <=? 19)%Z); [cbn; ring |].
  destruct ((31 <=? x)%Z && (x <=? 39)%Z); cbn; ring.
Qed.

(** X17.  The second magnet at the angles 0, pi/2 and pi: parallel to the first
    magnet, along [s_x], and antiparallel. *)
Theorem spin_valve_configurations (site : Site) (exc e : R) :
  3 * SpinValve.W < fst (pos site) < 4 * SpinValve.W ->
  SpinValve.onsite site (SpinValve.mkParams exc e 0) = (4 * s_0 + exc * s_z)%mat
  /\ SpinValve.onsite site (SpinValve.mkParams exc e (PI / 2))
     = (4 * s_0 + exc * s_x)%mat
  /\ SpinValve.onsite site (SpinValve.mkParams exc e PI)
     = (4 * s_0 + (- exc) * s_z)%mat.
Proof.
  intros [Hlo Hhi]. unfold SpinValve.onsite, SpinValve.W in *.
  cbn [SpinValve.Exc SpinValve.angle].
  rewrite (Rltb_false (fst (pos site)) (2 * 10)) by lra.
  rewrite andb_false_r.
  rewrite (Rltb_true (3 * 10)), (Rltb_true (fst (pos site))) by lra.
  cbn [andb].
  rewrite cos_0, sin_0, cos_PI2, sin_PI2, cos_PI, sin_PI.
  repeat split; apply M2_eq; apply Cplx_eq; cbn; ring.
Qed.

Lemma spin_valve_configurations_witness :
  SpinValve.onsite (lat 35 0) (SpinValve.mkParams 2 (12 / 10) 0)
  = (4 * s_0 + 2 * s_z)%mat
  /\ SpinValve.onsite (lat 35 0) (SpinValve.mkParams 2 (12 / 10) PI)
     = (4 * s_0 + (- 2) * s_z)%mat.
Proof.
  destruct (spin_valve_configurations (lat 35 0) 2 (12 / 10)) as (H0 & _ & Hpi).
  - unfold SpinValve.W; cbn. lra.
  - split; [exact H0 | exact Hpi].
Defined.

(** ** The geometry of the cross *)

Lemma Reqb_opp (a : R) : Reqb (- a) 0 = Reqb a 0.
Proof.
  unfold Reqb. destruct (Req_dec_T (- a) 0), (Req_dec_T a 0);
    try reflexivity; exfalso; lra.
Qed.

Lemma shape_2DEG_symmetric_y (ps : Skyrmion.params) (x y : R) :
  Skyrmion.shape_2DEG ps (x, - y) = Skyrmion.shape_2DEG ps (x, y).
Proof. unfold Skyrmion.shape_2DEG. rewrite !Rabs_Ropp. reflexivity. Qed.

(** X20.  The cross is symmetric under both reflections and under the exchange
    of the two axes. *)
Theorem shape_2DEG_symmetric (ps : Skyrmion.params) (x y : R) :
  Skyrmion.shape_2DEG ps (- x, y) = Skyrmion.shape_2DEG ps (x, y)
  /\ Skyrmion.shape_2DEG ps (x, - y) = Skyrmion.shape_2DEG ps (x, y)
  /\ Skyrmion.shape_2DEG ps (y, x) = Skyrmion.shape_2DEG ps (x, y).
Proof.
  unfold Skyrmion.shape_2DEG. rewrite !Rabs_Ropp.
  repeat split.
  rewrite orb_comm, (andb_comm (Rltb (Rabs y) _)), (andb_comm (Rltb (Rabs y) _)).
  reflexivity.
Qed.

Lemma Rltb_lt (a b : R) : Rltb a b = true <-> a < b.
Proof.
  unfold Rltb. destruct (Rlt_dec a b); split; auto; discriminate.
Qed.

(** X21.  The start site [(0,0)] of [lat.shape(shape_2DEG, (0,0))] belongs to the
    shape exactly when [L] and [W] are positive, and the shape is bounded:
    it fits into the square of half-width [max(L, W)]. *)
Theorem shape_2DEG_start_and_bound (ps : Skyrmion.params) (x y : R) :
  (Skyrmion.shape_2DEG ps (0, 0) = true
   <-> (0 < Skyrmion.L ps /\ 0 < Skyrmion.W ps))
  /\ (Skyrmion.shape_2DEG ps (x, y) = true ->
      Rabs x < Rmax (Skyrmion.L ps) (Skyrmion.W ps)
      /\ Rabs y < Rmax (Skyrmion.L ps) (Skyrmion.W ps)).
Proof.
  unfold Skyrmion.shape_2DEG. split.
  - rewrite Rabs_R0, orb_true_iff, !andb_true_iff, !Rltb_lt. tauto.
  - rewrite orb_true_iff, !andb_true_iff, !Rltb_lt.
    pose proof (Rmax_l (Skyrmion.L ps) (Skyrmion.W ps)).
    pose proof (Rmax_r (Skyrmion.L ps) (Skyrmion.W ps)).
    intros [[Hx Hy] | [Hx Hy]]; split; lra.
Qed.

(** X22.  With [L] positive, the cross-section of every lead lies inside the
    cross: the unit cells that [shape_x] and [shape_y] select are sites of
    the scattering region. *)
Theorem leads_inside_cross (ps : Skyrmion.params) (l : Skyrmion.lead)
    (pos : R * R) :
  0 < Skyrmion.L ps ->
  In l (Skyrmion.attached_leads ps) ->
  Skyrmion.cross_section l pos = true ->
  Skyrmion.shape_2DEG ps pos = true.
Proof.
  intros HL Hin Hl. destruct pos as [x y].
  assert (Hcase : (Rabs y < Skyrmion.W ps /\ x = 0)
                  \/ (Rabs x < Skyrmion.W ps /\ y = 0)).
  { cbn in Hin.
    destruct Hin as [<- | [<- | [<- | [<- | []]]]]; cbn in Hl;
      unfold Skyrmion.shape_x, Skyrmion.shape_y in Hl; cbn [fst snd] in Hl;
      apply andb_true_iff in Hl; destruct Hl as [Ha Hb];
      apply Rltb_lt in Ha; unfold Reqb in Hb;
      destruct (Req_dec_T _ 0); try discriminate; auto. }
  unfold Skyrmion.shape_2DEG.
  rewrite orb_true_iff, !andb_true_iff, !Rltb_lt.
  destruct Hcase as [[Hy ->] | [Hx ->]]; rewrite Rabs_R0; [left | right];
    split; assumption.
Qed.

Lemma leads_inside_cross_witness :
  Skyrmion.shape_2DEG ps_demo (0, 7) = true.
Proof.
  apply (leads_inside_cross ps_demo (Skyrmion.H_lead_x ps_demo) (0, 7)).
  - cbn. lra.
  - left; reflexivity.
  - cbn. unfold Skyrmion.shape_x; cbn [fst snd].
    rewrite Rltb_true by (rewrite Rabs_pos_eq; cbn; lra).
    rewrite Reqb_true by reflexivity. reflexivity.
Defined.

(** X23.  The device is mirror symmetric: the reflection [y -> -y] maps the
    cross to itself and the lead [k] to the lead [mirror k], so that the
    leads 1 and 2, between which [Transport] takes the Hall voltage, are
    mirror images of each other, and the leads 0 and 3 are their own. *)
Theorem MakeSystem_mirror_symmetric (ps : Skyrmion.params) (k : nat)
    (pos : R * R) (d : Skyrmion.lead) :
  (k < 4)%nat ->
  Skyrmion.shape_2DEG ps (fst pos, - snd pos) = Skyrmion.shape_2DEG ps pos
  /\ Skyrmion.symmetry (nth (mirror k) (Skyrmion.attached_leads ps) d)
     = Skyrmion.symmetry (reflect_y (nth k (Skyrmion.attached_leads ps) d))
  /\ Skyrmion.cross_section (nth (mirror k) (Skyrmion.attached_leads ps) d) pos
     = Skyrmion.cross_section
         (reflect_y (nth k (Skyrmion.attached_leads ps) d)) pos.
Proof.
  intros Hk. destruct pos as [x y]. cbn [fst snd].
  split; [apply (shape_2DEG_symmetric_y ps x y) |].
  destruct k as [| [| [| [| k]]]]; [| | | | lia];
    (split; [reflexivity |]); cbn;
    unfold Skyrmion.shape_x, Skyrmion.shape_y; cbn [fst snd];
    rewrite ?Rabs_Ropp, ?Reqb_opp; reflexivity.
Qed.

Lemma MakeSystem_mirror_symmetric_witness :
  Skyrmion.symmetry (nth 2 (Skyrmion.attached_leads ps_demo)
                         (Skyrmion.H_lead_x ps_demo))
  = (0, 1)%Z.
Proof.
  exact (proj1 (proj2 (MakeSystem_mirror_symmetric ps_demo 1 (0, 0)
                         (Skyrmion.H_lead_x ps_demo) ltac:(lia)))).
Defined.

(** ** The quantum dot and the wire *)

(** X24.  [is_inside] compares with the square of the radius: the sign of the
    radius does not matter, the centre is inside unless the radius is
    zero, and the disc is symmetric about its centre. *)
Theorem is_inside_disc (center : R * R) (radius : R) (pos : R * R) :
  Scattering.is_inside center (- radius) pos
  = Scattering.is_inside center radius pos
  /\ (Scattering.is_inside center radius center = true <-> radius <> 0)
  /\ Scattering.is_inside center radius
       (2 * fst center - fst pos, 2 * snd center - snd pos)
     = Scattering.is_inside center radius pos.
Proof.
  unfold Scattering.is_inside. cbn [fst snd]. split; [| split].
  - f_equal. ring.
  - rewrite Rltb_lt.
    replace ((fst center - fst center) ^ 2 + (snd center - snd center) ^ 2)
      with 0 by ring.
    split.
    + intros Hlt ->. revert Hlt. replace (0 ^ 2) with 0 by ring. lra.
    + intros Hne. assert (0 < radius * radius) by nra.
      replace (radius ^ 2) with (radius * radius) by ring. assumption.
  - f_equal. ring.
Qed.

(** X25.  A position inside the dot is closer than the radius to the centre
    along both axes: the dot is finite. *)
Theorem is_inside_bounded (center : R * R) (radius : R) (pos : R * R) :
  Scattering.is_inside center radius pos = true ->
  Rabs (fst pos - fst center) < Rabs radius
  /\ Rabs (snd pos - snd center) < Rabs radius.
Proof.
  unfold Scattering.is_inside. rewrite Rltb_lt.
  set (x := fst pos - fst center). set (y := snd pos - snd center).
  intros Hlt.
  split; apply Rsqr_lt_abs_0; unfold Rsqr; nra.
Qed.

Lemma is_inside_bounded_witness :
  Rabs (10 - 3) < Rabs 13 /\ Rabs (7 - 7) < Rabs 13.
Proof.
  apply (is_inside_bounded (3, 7) 13 (10, 7)).
  unfold Scattering.is_inside; cbn [fst snd]. apply Rltb_true. lra.
Defined.

Lemma in_range_lt (n : nat) (k : Z) :
  Scattering.in_range n k = true <-> (0 <= k < Z.of_nat n)%Z.
Proof.
  unfold Scattering.in_range.
  rewrite andb_true_iff, Z.leb_le, Z.ltb_lt. reflexivity.
Qed.

(** X26.  The wire continues its leads: for a length [L] of at least one column,
    the unit cell of each attached lead consists of sites of the
    scattering region, which carries the on-site and hopping values of the
    lead. *)
Theorem make_wire_continues_leads (W L : nat) (t : R)
    (lead : Scattering.builder) (a : Kwant.tag) :
  (0 < L)%nat ->
  In lead (snd (Scattering.make_wire W L t)) ->
  Scattering.sites lead a = true ->
  Scattering.sites (fst (Scattering.make_wire W L t)) a = true
  /\ Scattering.onsite (fst (Scattering.make_wire W L t))
     = Scattering.onsite lead
  /\ Scattering.hopping (fst (Scattering.make_wire W L t))
     = Scattering.hopping lead.
Proof.
  intros HL Hin Ha.
  assert (Hsites : (fst a =? 0)%Z && Scattering.in_range W (snd a) = true).
  { cbn in Hin. destruct Hin as [<- | [<- | []]]; exact Ha. }
  apply andb_true_iff in Hsites. destruct Hsites as [Hx Hy].
  apply Z.eqb_eq in Hx.
  split.
  - cbn. rewrite Hy, andb_true_r. apply in_range_lt. lia.
  - cbn in Hin. destruct Hin as [<- | [<- | []]]; split; reflexivity.
Qed.

Lemma make_wire_continues_leads_witness :
  Scattering.sites (fst (Scattering.make_wire 10 30 1)) (0, 3)%Z = true.
Proof.
  apply (make_wire_continues_leads 10 30 1 (Scattering.make_lead_x 10 1)
           (0, 3)%Z).
  - lia.
  - left; reflexivity.
  - reflexivity.
Defined.

(** A wire of length 0 has no site at all. *)
Lemma make_wire_empty (W : nat) (t : R) (a : Kwant.tag) :
  Scattering.sites (fst (Scattering.make_wire W 0 t)) a = false.
Proof.
  cbn [Scattering.make_wire fst Scattering.sites].
  destruct (Scattering.in_range 0 (fst a)) eqn:H0; [| reflexivity].
  apply in_range_lt in H0. cbn in H0. lia.
Qed.
